(** * Escape-time evaluator of the Mandelbrot tutorial

    A shallow embedding of [mandelbrot] and of the per-pixel body of [main]
    (the pixel-to-plane map and the colour policy) of the Mandelbrot
    tutorial, with the properties its specification states about them.

    - C++ [double] is IEEE 754 binary64, modelled by [spec_float] with the
      operations of the standard library's [SpecFloat] at precision 53 and
      maximal exponent 1024 (round to nearest, ties to even).
    - C++ [int] is modelled by [Z]; the products of the colour policy are
      reduced to 32 bits two's complement, [%] truncates towards zero, and the
      conversion to the 8-bit channels of [sf::Color] reduces modulo 256.
    - [std::complex<double>] is a pair of doubles. *)

(** The development also covers the rest of the two files: the pixel loops
    of [main] on the image, the web server (the second [main] of the same
    file) as the list of its system calls, and the frame loop of the audio
    visualizer, whose [float] is binary32. *)

From Stdlib Require Import String Ascii.
From Stdlib Require Import ZArith Bool Lia List.
From Stdlib Require Import SpecFloat PrimFloat FloatOps.

Local Open Scope Z_scope.

(* ===================================================================== *)
(** ** Binary64 arithmetic *)

Module Double.

Definition prec : Z := 53.
Definition emax : Z := 1024.

Definition double : Type := spec_float.

Definition add : double -> double -> double := SFadd prec emax.
Definition sub : double -> double -> double := SFsub prec emax.
Definition mul : double -> double -> double := SFmul prec emax.
Definition div : double -> double -> double := SFdiv prec emax.
Definition sqrt : double -> double := SFsqrt prec emax.

(** The comparisons [<] and [==] of C++ on doubles: false on NaN. *)
Definition ltb : double -> double -> bool := SFltb.
Definition eqb : double -> double -> bool := SFeqb.

Definition is_nan (x : double) : bool :=
  match x with S754_nan => true | _ => false end.

Definition is_finite (x : double) : bool :=
  match x with
  | S754_zero _ | S754_finite _ _ _ => true
  | S754_infinity _ | S754_nan => false
  end.

(** [(double)n] for an [int] [n]: every 32-bit integer is a double, so the
    conversion is exact; the mantissa is shifted to its canonical place. *)
Definition of_int (n : Z) : double :=
  match n with
  | Z0 => S754_zero false
  | Zpos p =>
      let '(m, e) := shl_align p 0 (fexp prec emax (Zpos (digits2_pos p))) in
      S754_finite false m e
  | Zneg p =>
      let '(m, e) := shl_align p 0 (fexp prec emax (Zpos (digits2_pos p))) in
      S754_finite true m e
  end.

Definition zero : double := S754_zero false.
Definition two : double := Eval vm_compute in of_int 2.

(** [hypot x y], the magnitude behind [std::abs] on a complex number: the
    square root of the exact sum of squares, rounded once.  The special
    cases are those of C99 (an infinite argument wins over NaN).  The
    [hypot] of a C library is accurate to the last place but need not round
    correctly, so on finite non-zero arguments it may differ from this one
    by one unit in the last place.  The general theorems of this file use
    the special cases and the indifference to the signs of the arguments
    only, never the rounding of the finite case. *)
Definition hypot (x y : double) : double :=
  match x, y with
  | S754_infinity _, _ | _, S754_infinity _ => S754_infinity false
  | S754_nan, _ | _, S754_nan => S754_nan
  | S754_zero _, _ => SFabs y
  | _, S754_zero _ => SFabs x
  | S754_finite _ mx ex, S754_finite _ my ey =>
      let e := Z.min ex ey in
      let ax := fst (shl_align mx ex e) in
      let ay := fst (shl_align my ey e) in
      sqrt (S754_finite false (ax * ax + ay * ay) (2 * e))
  end.

End Double.

Import Double.

(* ===================================================================== *)
(** ** Complex numbers over doubles *)

Module Cplx.

Record complex : Type := mk { re : double; im : double }.

(** [operator+]: componentwise. *)
Definition add (a b : complex) : complex :=
  mk (Double.add (re a) (re b)) (Double.add (im a) (im b)).

(** [operator*]: [(a.re*b.re - a.im*b.im, a.re*b.im + a.im*b.re)].  The
    recovery of infinities that the runtime applies when both parts come
    out NaN needs a non-finite operand; the loop of [mandelbrot] only
    multiplies a [z] whose magnitude is below 2. *)
Definition mul (a b : complex) : complex :=
  mk (Double.sub (Double.mul (re a) (re b)) (Double.mul (im a) (im b)))
     (Double.add (Double.mul (re a) (im b)) (Double.mul (im a) (re b))).

(** [std::abs]. *)
Definition abs (z : complex) : double := hypot (re z) (im z).

(** [std::complex<double> z = 0]. *)
Definition zero : complex := mk Double.zero Double.zero.

Definition is_finite (z : complex) : bool :=
  Double.is_finite (re z) && Double.is_finite (im z).

End Cplx.

Abbreviation complex := Cplx.complex.

(* ===================================================================== *)
(** ** The escape-time loop *)

(** The two locals of [mandelbrot]. *)
Record state : Type := mkState { z : complex; iterations : Z }.

Section Loop.

(** [c] is the argument of [mandelbrot]; [maxIterations] stands for the
    constant [MAX_ITERATIONS]. *)
Variable c : complex.
Variable maxIterations : Z.

Definition init : state := mkState Cplx.zero 0.

(** [std::abs(z) < 2.0 && iterations < MAX_ITERATIONS] *)
Definition loop_cond (st : state) : bool :=
  Double.ltb (Cplx.abs (z st)) two && (iterations st <? maxIterations).

(** [z = z * z + c; iterations++;] *)
Definition loop_body (st : state) : state :=
  mkState (Cplx.add (Cplx.mul (z st) (z st)) c) (iterations st + 1).

(** The [while] statement, run for at most [fuel] passes. *)
Fixpoint while_loop (fuel : nat) (st : state) : state :=
  match fuel with
  | O => st
  | S fuel' =>
      if loop_cond st then while_loop fuel' (loop_body st) else st
  end.

(** The [while] statement as a relation: [exec_loop st n st'] when the loop
    entered in [st] makes exactly [n] passes and leaves in [st']. *)
Inductive exec_loop : state -> nat -> state -> Prop :=
| exec_exit : forall st,
    loop_cond st = false -> exec_loop st O st
| exec_pass : forall st n st',
    loop_cond st = true ->
    exec_loop (loop_body st) n st' ->
    exec_loop st (S n) st'.

End Loop.

(** [iterate c maxIterations]: the body of [mandelbrot].  The loop makes at
    most [maxIterations] passes ([while_loop_exec] below), which is the fuel
    given here. *)
Definition iterate (c : complex) (maxIterations : Z) : Z :=
  iterations (while_loop c maxIterations (Z.to_nat maxIterations) init).

Definition MAX_ITERATIONS : Z := 100.

Definition mandelbrot (c : complex) : Z := iterate c MAX_ITERATIONS.

(* ===================================================================== *)
(** ** The per-pixel body of [main] *)

(** The region of the plane and the size of the grid: the constants
    [RE_START], [RE_END], [IM_START], [IM_END], [WIDTH], [HEIGHT]. *)
Record ViewportSpec : Type := mkViewport {
  reStart : double;
  reEnd : double;
  imStart : double;
  imEnd : double;
  width : Z;
  height : Z
}.

Definition WIDTH : Z := 800.
Definition HEIGHT : Z := 800.
Definition RE_START : double := Eval vm_compute in Prim2SF (-2.0)%float.
Definition RE_END : double := Eval vm_compute in Prim2SF (1.0)%float.
Definition IM_START : double := Eval vm_compute in Prim2SF (-1.5)%float.
Definition IM_END : double := Eval vm_compute in Prim2SF (1.5)%float.

Definition source_viewport : ViewportSpec :=
  mkViewport RE_START RE_END IM_START IM_END WIDTH HEIGHT.

(** [re = RE_START + (double)x / WIDTH * (RE_END - RE_START)] and the same
    for [im]; [/] and [*] associate to the left. *)
Definition mapPixelToPoint (x y : Z) (vp : ViewportSpec) : complex :=
  Cplx.mk
    (Double.add (reStart vp)
       (Double.mul (Double.div (of_int x) (of_int (width vp)))
                   (Double.sub (reEnd vp) (reStart vp))))
    (Double.add (imStart vp)
       (Double.mul (Double.div (of_int y) (of_int (height vp)))
                   (Double.sub (imEnd vp) (imStart vp)))).

(** [sf::Color]: four 8-bit channels. *)
Module Color.

Record t : Type := mk { r : Z; g : Z; b : Z; a : Z }.

(** Conversion of an [int] to [Uint8]. *)
Definition to_uint8 (n : Z) : Z := n mod 256.

(** The constructor [sf::Color(red, green, blue)]; alpha defaults to 255. *)
Definition rgb (red green blue : Z) : t :=
  mk (to_uint8 red) (to_uint8 green) (to_uint8 blue) 255.

(** [sf::Color::Black] *)
Definition Black : t := mk 0 0 0 255.

End Color.

(** Arithmetic of [int]: 32 bits, two's complement. *)
Definition INT_MAX : Z := 2147483647.

Definition wrap_int (n : Z) : Z := (n + 2 ^ 31) mod 2 ^ 32 - 2 ^ 31.

Definition int_mul (m n : Z) : Z := wrap_int (m * n).

(** [%] on [int]: the remainder of the division that truncates. *)
Definition int_rem (m n : Z) : Z := Z.rem m n.

(** The colour policy of [main]: black when the count reached the budget,
    else the three products reduced by [% 255]. *)
Definition colorize (iterationResult maxIterations : Z) : Color.t :=
  if iterationResult =? maxIterations then Color.Black
  else
    let r := int_rem (int_mul iterationResult 5) 255 in
    let g := int_rem (int_mul iterationResult 10) 255 in
    let b := int_rem (int_mul iterationResult 15) 255 in
    Color.rgb r g b.

(** The colour [main] gives to the pixel [(x, y)]. *)
Definition pixel_color (x y : Z) : Color.t :=
  colorize (mandelbrot (mapPixelToPoint x y source_viewport)) MAX_ITERATIONS.

(** How a call of the kernel ends.  The functions are plain C++ functions
    without [throw], assertion or check: a call returns its value. *)
Inductive outcome (A : Type) : Type :=
| Returned : A -> outcome A
| PreconditionViolation : outcome A.

Arguments Returned {A} _.
Arguments PreconditionViolation {A}.

Definition call_iterate (c : complex) (maxIterations : Z) : outcome Z :=
  Returned (iterate c maxIterations).

Definition call_mapPixelToPoint (x y : Z) (vp : ViewportSpec)
  : outcome complex :=
  Returned (mapPixelToPoint x y vp).

(** The configurations the specification calls invalid. *)
Definition invalid_iterate_args (c : complex) (maxIterations : Z) : bool :=
  negb (Cplx.is_finite c) || (maxIterations <=? 0).

Definition invalid_pixel_args (x y : Z) (vp : ViewportSpec) : bool :=
  (width vp <=? 0) || (height vp <=? 0)
  || (x <? 0) || (width vp <=? x) || (y <? 0) || (height vp <=? y).

(** The orbit of 0 under [z -> z*z + c]: [orbit c k] is [z] after [k]
    passes of the loop. *)
Fixpoint orbit (c : complex) (k : nat) : complex :=
  match k with
  | O => Cplx.zero
  | S k' => Cplx.add (Cplx.mul (orbit c k') (orbit c k')) c
  end.

(** The locals of [mandelbrot] after [k] passes of the loop. *)
Definition state_at (c : complex) (k : nat) : state :=
  mkState (orbit c k) (Z.of_nat k).

(** The formula of the specification for the pixel map, read over doubles:
    [re = reStart + (x / width) * (reEnd - reStart)],
    [im = imStart + (y / height) * (imEnd - imStart)]. *)
Definition spec_mapPixelToPoint (x y : Z) (vp : ViewportSpec) : complex :=
  let fx := Double.div (of_int x) (of_int (width vp)) in
  let fy := Double.div (of_int y) (of_int (height vp)) in
  Cplx.mk (Double.add (reStart vp) (Double.mul fx (Double.sub (reEnd vp) (reStart vp))))
          (Double.add (imStart vp) (Double.mul fy (Double.sub (imEnd vp) (imStart vp)))).

(** The invariants the specification gives a viewport: a positive grid and
    [reStart < reEnd], [imStart < imEnd]. *)
Definition valid_viewport (vp : ViewportSpec) : bool :=
  (0 <? width vp) && (0 <? height vp)
  && Double.ltb (reStart vp) (reEnd vp)
  && Double.ltb (imStart vp) (imEnd vp).

(** Inputs used in the evaluations below. *)

(** [DBL_MAX], the largest finite double. *)
Definition DBL_MAX : double := Eval vm_compute in SFmax_float prec emax.

(** [-2 + 0i], the leftmost point of the Mandelbrot set; [main] reaches it
    at the pixel [(0, 400)]. *)
Definition boundary_point : complex := Cplx.mk RE_START Double.zero.

(** A point with a NaN coordinate. *)
Definition nan_point : complex := Cplx.mk S754_nan Double.zero.

(** A viewport with finite bounds whose horizontal span overflows. *)
Definition wide_viewport : ViewportSpec :=
  mkViewport (SFopp DBL_MAX) DBL_MAX IM_START IM_END WIDTH HEIGHT.

(* ===================================================================== *)
(** ** The picture: the pixel loops of [main] *)

(** [sf::Image]: the size and the pixel buffer, one colour per pixel, the
    pixel [(x, y)] at the index [x + y * size_x]. *)
Module Image.

Record t : Type := mk { size_x : Z; size_y : Z; pixels : list Color.t }.

(** [image.create(width, height)]: every pixel is [Color(0, 0, 0)]. *)
Definition create (w h : Z) : t :=
  mk w h (repeat Color.Black (Z.to_nat (w * h))).

Definition in_bounds (img : t) (x y : Z) : bool :=
  (0 <=? x) && (x <? size_x img) && (0 <=? y) && (y <? size_y img).

Definition index (img : t) (x y : Z) : nat := Z.to_nat (x + y * size_x img).

Fixpoint update (l : list Color.t) (i : nat) (col : Color.t) : list Color.t :=
  match l, i with
  | nil, _ => nil
  | _ :: l', O => col :: l'
  | old :: l', S i' => old :: update l' i' col
  end.

(** [setPixel(x, y, color)].  The library leaves a call with coordinates
    outside the image undefined: [None]. *)
Definition setPixel (img : t) (x y : Z) (col : Color.t) : option t :=
  if in_bounds img x y
  then Some (mk (size_x img) (size_y img) (update (pixels img) (index img x y) col))
  else None.

(** [getPixel(x, y)], undefined outside the image as well. *)
Definition getPixel (img : t) (x y : Z) : option Color.t :=
  if in_bounds img x y then nth_error (pixels img) (index img x y) else None.

End Image.

(** A counting loop [for (int i = first; i < bound; ++i) body], whose body
    does not touch [i]: it makes [bound - first] passes (none when that is
    negative) and stops at the first pass that is undefined. *)
Fixpoint for_passes {S : Type} (body : Z -> S -> option S)
  (passes : nat) (i : Z) (s : S) : option S :=
  match passes with
  | O => Some s
  | Datatypes.S passes' =>
      match body i s with
      | Some s' => for_passes body passes' (i + 1) s'
      | None => None
      end
  end.

Definition for_range {S : Type} (first bound : Z)
  (body : Z -> S -> option S) (s : S) : option S :=
  for_passes body (Z.to_nat (bound - first)) first s.

(** The inner loop of [main] over [y], for the column [x]. *)
Definition render_column (h : Z) (color_of : Z -> Z -> Color.t)
  (x : Z) (img : Image.t) : option Image.t :=
  for_range 0 h (fun y img' => Image.setPixel img' x y (color_of x y)) img.

(** The two loops of [main] on a fresh image of [w] by [h] pixels. *)
Definition render (w h : Z) (color_of : Z -> Z -> Color.t) : option Image.t :=
  for_range 0 w (render_column h color_of) (Image.create w h).

(** The image [main] hands to the texture. *)
Definition main_image : option Image.t := render WIDTH HEIGHT pixel_color.

(** The invariants of the pixel loops.  [well_sized]: the image keeps its
    size and its buffer its length.  [painted]: a pixel holds its colour.
    [painted_up_to x y]: the loops stand at the column [x] and the row [y];
    the columns before [x] are painted, and so are the rows before [y] of
    the column [x]. *)
Section RenderInvariants.

Variables w h : Z.
Variable color_of : Z -> Z -> Color.t.

Definition well_sized (img : Image.t) : Prop :=
  Image.size_x img = w /\ Image.size_y img = h /\
  length (Image.pixels img) = Z.to_nat (w * h).

Definition painted (img : Image.t) (x y : Z) : Prop :=
  Image.getPixel img x y = Some (color_of x y).

Definition painted_up_to (x y : Z) (img : Image.t) : Prop :=
  well_sized img /\
  (forall x' y', 0 <= x' < x -> 0 <= y' < h -> painted img x' y') /\
  (forall y', 0 <= y' < y -> painted img x y').

End RenderInvariants.

(** The coordinates of the grid of [main]: the real part of a pixel depends
    on its column only and the imaginary part on its row only. *)
Definition pixel_re (x : Z) : double :=
  Cplx.re (mapPixelToPoint x 0 source_viewport).

Definition pixel_im (y : Z) : double :=
  Cplx.im (mapPixelToPoint 0 y source_viewport).

(** [<=] on doubles. *)
Definition leb : double -> double -> bool := SFleb.

(** [pairwise rel l]: [rel] holds from every element of [l] to every later
    one. *)
Fixpoint pairwise {A : Type} (rel : A -> A -> bool) (l : list A) : bool :=
  match l with
  | nil => true
  | a :: l' => forallb (rel a) l' && pairwise rel l'
  end.

(** The values of [f] at [0, 1, ..., n - 1]. *)
Definition tabulate {A : Type} (f : Z -> A) (n : nat) : list A :=
  map (fun i => f (Z.of_nat i)) (seq 0 n).

(* ===================================================================== *)
(** ** The web server: the second [main] of the file *)

(** The server talks to the operating system only.  A run is the list of
    its system calls and prints, each call with the value the system
    returned; the values come from the environment: one [setup] for the
    three calls before the loop and one [attempt] for each pass of the
    accept loop. *)
Module Server.

Definition PORT : Z := 8080.

Inductive event : Type :=
| Call_socket (result : Z)
| Call_bind (fd port result : Z)
| Call_listen (fd backlog result : Z)
| Call_accept (fd result : Z)
| Call_read (fd count result : Z)
| Call_write (fd : Z) (data : string) (count : Z)
| Call_close (fd : Z)
| Print_cerr (text : string)
| Print_cout (text : string).

Record setup : Type := mkSetup {
  socket_result : Z;
  bind_result : Z;
  listen_result : Z
}.

Record attempt : Type := mkAttempt {
  accept_result : Z;      (* the new descriptor, or a negative value *)
  peer_address : string;  (* the text of [inet_ntoa] for the peer *)
  peer_port : string;     (* the decimal text of the peer's port *)
  read_result : Z;        (* what [read] returns *)
  incoming : string       (* the bytes the peer has sent *)
}.

(** How [main] stands after the calls of a run: returned, or still in the
    loop [while (true)], waiting in [accept]. *)
Inductive status : Type :=
| Exited (code : Z)
| Accepting.

Definition CR : ascii := ascii_of_nat 13.
Definition LF : ascii := ascii_of_nat 10.
Definition NUL : ascii := ascii_of_nat 0.
Definition endl : string := String LF EmptyString.
Definition CRLF : string := String CR (String LF EmptyString).

(** [http_response], the concatenation of the six literals. *)
Definition http_response : string :=
  ("HTTP/1.1 200 OK" ++ CRLF ++
   "Content-Type: text/html" ++ CRLF ++
   CRLF ++
   "<html>" ++
   "<body><h1>Hello from your C++ Web Server!</h1></body>" ++
   "</html>")%string.

(** A [char] array read as a C string: the characters before the first
    NUL. *)
Fixpoint c_str (s : string) : string :=
  match s with
  | EmptyString => EmptyString
  | String ch rest =>
      if Ascii.eqb ch NUL then EmptyString else String ch (c_str rest)
  end.

(** [buffer] after [read(new_socket, buffer, sizeof(buffer) - 1)]: the array
    of 1024 zeros with the bytes that arrived, at most 1023 of them, at its
    start. *)
Definition buffer_after_read (a : attempt) : string :=
  substring 0 (Z.to_nat (Z.min (read_result a) 1023)) (incoming a).

(** One pass of the accept loop. *)
Definition handle (server_fd : Z) (a : attempt) : list event :=
  let new_socket := accept_result a in
  Call_accept server_fd new_socket ::
  if new_socket <? 0 then
    Print_cerr ("Error: Could not accept connection." ++ endl) :: nil
  else
    Print_cout ("Connection accepted from " ++ peer_address a ++ ":"
                ++ peer_port a ++ endl) ::
    Call_read new_socket 1023 (read_result a) ::
    if read_result a <? 0 then
      Print_cerr ("Error: Failed to read from socket." ++ endl) ::
      Call_close new_socket :: nil
    else
      Print_cout ("Received request:" ++ endl
                  ++ c_str (buffer_after_read a) ++ endl) ::
      Call_write new_socket http_response
                 (Z.of_nat (String.length http_response)) ::
      Call_close new_socket ::
      Print_cout ("Connection closed." ++ endl) :: nil.

(** The loop [while (true)] over the attempts the environment makes. *)
Definition accept_loop (server_fd : Z) (attempts : list attempt)
  : list event :=
  flat_map (handle server_fd) attempts.

(** [main]: the three calls of the setup, each with its error exit, then
    the loop.  The statements after the loop are never reached. *)
Definition main (env : setup) (attempts : list attempt)
  : list event * status :=
  let server_fd := socket_result env in
  if server_fd =? -1 then
    (Call_socket server_fd ::
     Print_cerr ("Error: Could not create socket." ++ endl) :: nil,
     Exited 1)
  else if bind_result env <? 0 then
    (Call_socket server_fd ::
     Call_bind server_fd PORT (bind_result env) ::
     Print_cerr ("Error: Could not bind socket to port 8080" ++ endl) ::
     Call_close server_fd :: nil,
     Exited 1)
  else if listen_result env <? 0 then
    (Call_socket server_fd ::
     Call_bind server_fd PORT (bind_result env) ::
     Call_listen server_fd 3 (listen_result env) ::
     Print_cerr ("Error: Could not listen on socket." ++ endl) ::
     Call_close server_fd :: nil,
     Exited 1)
  else
    (Call_socket server_fd ::
     Call_bind server_fd PORT (bind_result env) ::
     Call_listen server_fd 3 (listen_result env) ::
     Print_cout ("Server listening on port 8080..." ++ endl) ::
     accept_loop server_fd attempts,
     Accepting).

(** Readings of a run. *)

(** The descriptors [accept] handed out, oldest first. *)
Fixpoint accepted (trace : list event) : list Z :=
  match trace with
  | nil => nil
  | Call_accept _ result :: rest =>
      if result <? 0 then accepted rest else result :: accepted rest
  | _ :: rest => accepted rest
  end.

(** The descriptors closed, oldest first. *)
Fixpoint closed (trace : list event) : list Z :=
  match trace with
  | nil => nil
  | Call_close fd :: rest => fd :: closed rest
  | _ :: rest => closed rest
  end.

(** What was written, and where. *)
Fixpoint written (trace : list event) : list (Z * string) :=
  match trace with
  | nil => nil
  | Call_write fd data _ :: rest => (fd, data) :: written rest
  | _ :: rest => written rest
  end.

(** The attempts that reach the response: accepted, and read without
    error. *)
Definition answered (a : attempt) : bool :=
  (0 <=? accept_result a) && (0 <=? read_result a).

(** A descriptor is in use from the [accept] that returns it to its
    [close]; [balanced open trace] checks that reads, writes and closes only
    touch the descriptor in use, that no connection is accepted while
    another is in use, and gives the descriptor in use at the end. *)
Fixpoint balanced (open : option Z) (trace : list event)
  : option (option Z) :=
  match trace with
  | nil => Some open
  | Call_accept _ result :: rest =>
      match open with
      | Some _ => None
      | None => balanced (if result <? 0 then None else Some result) rest
      end
  | Call_read fd _ _ :: rest
  | Call_write fd _ _ :: rest =>
      match open with
      | Some cur => if fd =? cur then balanced open rest else None
      | None => None
      end
  | Call_close fd :: rest =>
      match open with
      | Some cur => if fd =? cur then balanced None rest else None
      | None => None
      end
  | _ :: rest => balanced open rest
  end.

(** The setup succeeds when none of [socket], [bind] and [listen] fails. *)
Definition setup_succeeds (env : setup) : Prop :=
  socket_result env <> -1 /\ 0 <= bind_result env /\ 0 <= listen_result env.

End Server.

(* ===================================================================== *)
(** ** Mirror images *)

(** [std::conj(c)]: the mirror image of [c] in the real axis. *)
Definition conjugate (c : complex) : complex :=
  Cplx.mk (Cplx.re c) (SFopp (Cplx.im c)).

(** Two doubles that are the same up to the sign of a zero. *)
Definition same_value (a b : double) : Prop :=
  a = b \/ exists s t : bool, a = S754_zero s /\ b = S754_zero t.

(** [mirrored z w]: [z] is the mirror image of [w], up to the signs of
    zeros. *)
Definition mirrored (z w : complex) : Prop :=
  same_value (Cplx.re z) (Cplx.re w) /\
  same_value (Cplx.im z) (SFopp (Cplx.im w)).

(* ===================================================================== *)
(** ** The audio visualizer: the frame loop of its [main] *)

(** C++ [float] is IEEE 754 binary32: [spec_float] at precision 24 and
    maximal exponent 128.  [sf::Uint32] is modelled by [Z] reduced modulo
    [2^32]. *)
Module Visualizer.

Definition fprec : Z := 24.
Definition femax : Z := 128.

Definition single : Type := spec_float.

Definition fsub : single -> single -> single := SFsub fprec femax.
Definition fmul : single -> single -> single := SFmul fprec femax.
Definition fdiv : single -> single -> single := SFdiv fprec femax.

(** [static_cast<float>(n)] for an integer below [2^24]: exact. *)
Definition of_int (n : Z) : single :=
  match n with
  | Z0 => S754_zero false
  | Zpos p =>
      let '(m, e) := shl_align p 0 (fexp fprec femax (Zpos (digits2_pos p))) in
      S754_finite false m e
  | Zneg p =>
      let '(m, e) := shl_align p 0 (fexp fprec femax (Zpos (digits2_pos p))) in
      S754_finite true m e
  end.

Definition WINDOW_WIDTH : Z := 800.
Definition WINDOW_HEIGHT : Z := 600.
Definition MAX_SAMPLES_TO_DISPLAY : Z := 500.
Definition AMPLITUDE_SCALE : single := Eval vm_compute in of_int 50.

(** Constant expressions of the loop body: [WINDOW_HEIGHT / 2.0f],
    [32768.0f] and [static_cast<float>(WINDOW_WIDTH) /
    MAX_SAMPLES_TO_DISPLAY]. *)
Definition half_height : single :=
  Eval vm_compute in fdiv (of_int WINDOW_HEIGHT) (of_int 2).
Definition int16_scale : single := Eval vm_compute in of_int 32768.
Definition segment_width : single :=
  Eval vm_compute in fdiv (of_int WINDOW_WIDTH) (of_int MAX_SAMPLES_TO_DISPLAY).

Definition wrap_u32 (n : Z) : Z := n mod 2 ^ 32.

(** [sf::Vertex]: a position and a colour. *)
Record vertex : Type := mkVertex {
  position_x : single;
  position_y : single;
  color : Color.t
}.

Definition Green : Color.t := Color.mk 0 255 0 255.
Definition Cyan : Color.t := Color.mk 0 255 255 255.

(** [yPos] for a sample:
    [WINDOW_HEIGHT / 2.0f - (sampleValue / 32768.0f) * AMPLITUDE_SCALE]. *)
Definition y_pos (sample : Z) : single :=
  let sampleValue := of_int sample in
  let normalizedAmplitude := fdiv sampleValue int16_scale in
  fsub half_height (fmul normalizedAmplitude AMPLITUDE_SCALE).

(** [xPos] for the segment [i]:
    [(float)i * ((float)WINDOW_WIDTH / MAX_SAMPLES_TO_DISPLAY)]. *)
Definition x_pos (i : Z) : single := fmul (of_int i) segment_width.

(** [waveform[k] = v] on the vertex array. *)
Fixpoint set_vertex (waveform : list vertex) (k : nat) (v : vertex)
  : list vertex :=
  match waveform, k with
  | nil, _ => nil
  | _ :: rest, O => v :: rest
  | old :: rest, S k' => old :: set_vertex rest k' v
  end.

(** The clamp of the current index:
    [if (currentSampleIndex >= numSamples) currentSampleIndex = numSamples - 1],
    in 32-bit unsigned arithmetic. *)
Definition clamp_index (currentSampleIndex numSamples : Z) : Z :=
  if numSamples <=? currentSampleIndex then wrap_u32 (numSamples - 1)
  else currentSampleIndex.

(** The loop over [i], with [passes] passes left.  A pass leaves the loop
    ([break]) when the index is past the end; it reads
    [samples[sampleIndex * channels]], which is undefined outside the buffer
    ([None]); then it sets the two vertices of the segment [i]. *)
Fixpoint draw_segments (samples : list Z) (numSamples channels current : Z)
  (passes : nat) (i : Z) (waveform : list vertex) : option (list vertex) :=
  match passes with
  | O => Some waveform
  | S passes' =>
      let sampleIndex := wrap_u32 (current + i) in
      if numSamples <=? sampleIndex then Some waveform
      else
        match nth_error samples (Z.to_nat (wrap_u32 (sampleIndex * channels))) with
        | None => None
        | Some sample =>
            let w1 := set_vertex waveform (Z.to_nat (i * 2))
                        (mkVertex (x_pos i) half_height Green) in
            let w2 := set_vertex w1 (Z.to_nat (i * 2 + 1))
                        (mkVertex (x_pos i) (y_pos sample) Cyan) in
            draw_segments samples numSamples channels current
                          passes' (i + 1) w2
        end
  end.

(** One frame: the clamp, then the loop
    [for (int i = 0; i < MAX_SAMPLES_TO_DISPLAY; ++i)]. *)
Definition draw_frame (samples : list Z) (numSamples channels : Z)
  (currentSampleIndex : Z) (waveform : list vertex) : option (list vertex) :=
  draw_segments samples numSamples channels
    (clamp_index currentSampleIndex numSamples)
    (Z.to_nat MAX_SAMPLES_TO_DISPLAY) 0 waveform.

(** [test] holds at [first], [first + 1], ..., for [count] integers. *)
Fixpoint holds_from (test : Z -> bool) (count : nat) (first : Z) : bool :=
  match count with
  | O => true
  | S count' => test first && holds_from test count' (first + 1)
  end.

(** The pixel rows 250 and 350, 50 above and below the centre line, and
    the right edge of the window. *)
Definition row_250 : single := Eval vm_compute in of_int 250.
Definition row_350 : single := Eval vm_compute in of_int 350.
Definition right_edge : single := Eval vm_compute in of_int WINDOW_WIDTH.

(** The height of a vertex is between the rows 250 and 350. *)
Definition y_pos_inside (sample : Z) : bool :=
  let y := y_pos sample in SFleb row_250 y && SFleb y row_350.

(** The abscissa of a segment is inside the window and before that of the
    next segment. *)
Definition x_pos_inside (i : Z) : bool :=
  SFleb (S754_zero false) (x_pos i)
  && SFltb (x_pos i) (x_pos (i + 1))
  && SFleb (x_pos (i + 1)) right_edge.

End Visualizer.

(* ===================================================================== *)
(** ** Sanity checks of the model on concrete values *)

Example of_int_800 : of_int 800 = Prim2SF 800%float.
Proof. vm_compute. reflexivity. Qed.

Example hypot_3_4 : hypot (of_int 3) (of_int (-4)) = of_int 5.
Proof. vm_compute. reflexivity. Qed.

Example hypot_1_1 : hypot (of_int 1) (of_int 1) = Prim2SF (PrimFloat.sqrt 2).
Proof. vm_compute. reflexivity. Qed.

Example pixel_0_0 : mapPixelToPoint 0 0 source_viewport = Cplx.mk RE_START IM_START.
Proof. vm_compute. reflexivity. Qed.

(* ===================================================================== *)
(** ** The colour policy *)

Section Colorize.

Lemma wrap_int_small (n : Z) :
  - 2 ^ 31 <= n <= INT_MAX -> wrap_int n = n.
Proof.
  unfold wrap_int, INT_MAX. intros Hn.
  rewrite Z.mod_small; lia.
Qed.

Lemma to_uint8_range (n : Z) : 0 <= Color.to_uint8 n <= 255.
Proof.
  unfold Color.to_uint8.
  pose proof (Z.mod_pos_bound n 256 ltac:(lia)). lia.
Qed.

(** One gradient channel when the product fits in an [int]: no wrap-around,
    [%] agrees with [mod], and the result already is an 8-bit value. *)
Lemma channel_value (count k : Z) :
  0 <= count -> 0 < k -> count * k <= INT_MAX ->
  Color.to_uint8 (int_rem (int_mul count k) 255) = (count * k) mod 255.
Proof.
  intros Hc Hk Hfit. unfold int_rem, int_mul.
  rewrite wrap_int_small by (unfold INT_MAX in *; nia).
  rewrite Z.rem_mod_nonneg by nia.
  unfold Color.to_uint8.
  pose proof (Z.mod_pos_bound (count * k) 255 ltac:(lia)).
  apply Z.mod_small. lia.
Qed.

Lemma colorize_escaped (iterationResult maxIterations : Z) :
  iterationResult <> maxIterations ->
  colorize iterationResult maxIterations =
  Color.rgb (int_rem (int_mul iterationResult 5) 255)
            (int_rem (int_mul iterationResult 10) 255)
            (int_rem (int_mul iterationResult 15) 255).
Proof.
  intros Hne. unfold colorize.
  destruct (Z.eqb_spec iterationResult maxIterations) as [Heq | _];
    [contradiction | reflexivity].
Qed.

End Colorize.

(** C1, as the code has it: for every count [0 <= iterationResult <
    maxIterations] whose products fit in an [int], [colorize] returns the
    gradient colour with channels [(iterationResult*5) mod 255],
    [(iterationResult*10) mod 255] and [(iterationResult*15) mod 255]: the
    modulus is 255, not 256. *)
Theorem colorize_gradient_mod_255 (iterationResult maxIterations : Z) :
  0 <= iterationResult < maxIterations ->
  iterationResult * 15 <= INT_MAX ->
  colorize iterationResult maxIterations =
  Color.mk ((iterationResult * 5) mod 255)
           ((iterationResult * 10) mod 255)
           ((iterationResult * 15) mod 255)
           255.
Proof.
  intros [Hlo Hhi] Hfit.
  rewrite colorize_escaped by lia.
  unfold Color.rgb.
  rewrite !channel_value by lia.
  reflexivity.
Qed.

Lemma colorize_gradient_mod_255_witness :
  colorize 7 100 = Color.mk 35 70 105 255.
Proof.
  apply (colorize_gradient_mod_255 7 100); unfold INT_MAX; lia.
Defined.

(** C1 as stated fails: at count 51 with budget 100 the red channel of the
    code is [255 % 255 = 0], where the claim's formula gives
    [255 mod 256 = 255]. *)
Lemma colorize_not_mod_256 :
  51 < 100 /\
  Color.r (colorize 51 100) = 0 /\
  (51 * 5) mod 256 = 255 /\
  colorize 51 100 <>
  Color.mk ((51 * 5) mod 256) ((51 * 10) mod 256) ((51 * 15) mod 256) 255.
Proof.
  repeat split; try reflexivity.
  vm_compute. discriminate.
Qed.

(** C7: for every value of [maxIterations], [colorize maxIterations
    maxIterations] is the in-set colour, black [(0, 0, 0)]. *)
Theorem colorize_in_set_black (maxIterations : Z) :
  colorize maxIterations maxIterations = Color.Black /\
  Color.r Color.Black = 0 /\ Color.g Color.Black = 0 /\ Color.b Color.Black = 0.
Proof.
  unfold colorize. rewrite Z.eqb_refl. repeat split.
Qed.

(** C8: for every non-negative [iterationResult <= maxIterations], each of
    the three channels of [colorize] lies in [[0, 255]]. *)
Theorem colorize_channels_in_range (iterationResult maxIterations : Z) :
  0 <= iterationResult <= maxIterations ->
  let col := colorize iterationResult maxIterations in
  0 <= Color.r col <= 255 /\
  0 <= Color.g col <= 255 /\
  0 <= Color.b col <= 255.
Proof.
  intros _ col. subst col. unfold colorize.
  destruct (iterationResult =? maxIterations).
  - cbn. lia.
  - cbn [Color.rgb Color.r Color.g Color.b].
    repeat split; apply to_uint8_range.
Qed.

Lemma colorize_channels_in_range_witness :
  let col := colorize 33 100 in
  0 <= Color.r col <= 255 /\
  0 <= Color.g col <= 255 /\
  0 <= Color.b col <= 255.
Proof.
  apply (colorize_channels_in_range 33 100). lia.
Defined.

(** C9: a count strictly below the budget is coloured [(0, 0, 0)], the
    colour of the in-set points: with the budget 100 the count 51, a count
    [mandelbrot] returns, gives [255 % 255 = 0], [510 % 255 = 0] and
    [765 % 255 = 0]; so an escaped point is rendered like an in-set point:
    in the picture of [main] the pixel [(583, 250)] escapes at the pass 51,
    the pixel [(533, 400)] uses up the budget, and both are black. *)
Theorem colorize_escaped_black :
  1 <= 51 < MAX_ITERATIONS /\
  (51 * 5) mod 255 = 0 /\ (51 * 10) mod 255 = 0 /\ (51 * 15) mod 255 = 0 /\
  colorize 51 MAX_ITERATIONS = Color.mk 0 0 0 255 /\
  colorize 51 MAX_ITERATIONS = colorize MAX_ITERATIONS MAX_ITERATIONS /\
  exists x y x' y' : Z,
    (0 <= x < WIDTH /\ 0 <= y < HEIGHT) /\
    (0 <= x' < WIDTH /\ 0 <= y' < HEIGHT) /\
    mandelbrot (mapPixelToPoint x y source_viewport) = 51 /\
    mandelbrot (mapPixelToPoint x' y' source_viewport) = MAX_ITERATIONS /\
    pixel_color x y = Color.Black /\
    pixel_color x y = pixel_color x' y'.
Proof.
  split; [unfold MAX_ITERATIONS; lia |].
  do 3 (split; [reflexivity |]).
  split; [reflexivity |]. split; [reflexivity |].
  exists 583, 250, 533, 400.
  split; [unfold WIDTH, HEIGHT; lia |].
  split; [unfold WIDTH, HEIGHT; lia |].
  assert (Hescaped : mandelbrot (mapPixelToPoint 583 250 source_viewport) = 51)
    by (vm_compute; reflexivity).
  assert (Hinside :
            mandelbrot (mapPixelToPoint 533 400 source_viewport) = MAX_ITERATIONS)
    by (vm_compute; reflexivity).
  split; [exact Hescaped |]. split; [exact Hinside |].
  unfold pixel_color. rewrite Hescaped, Hinside.
  split; reflexivity.
Qed.

(* ===================================================================== *)
(** ** The loop: passes, fuel and the orbit *)

Section LoopFacts.

Variable c : complex.
Variable maxIterations : Z.

Lemma loop_body_increments (st : state) :
  iterations (loop_body c st) = iterations st + 1.
Proof. reflexivity. Qed.

Lemma loop_cond_true (st : state) :
  loop_cond maxIterations st = true ->
  Double.ltb (Cplx.abs (z st)) two = true /\ iterations st < maxIterations.
Proof.
  unfold loop_cond. intros H.
  apply andb_true_iff in H. destruct H as [Habs Hlt].
  split; [exact Habs | now apply Z.ltb_lt].
Qed.

Lemma loop_cond_false (st : state) :
  loop_cond maxIterations st = false ->
  Double.ltb (Cplx.abs (z st)) two = false \/ maxIterations <= iterations st.
Proof.
  unfold loop_cond. intros H.
  apply andb_false_iff in H. destruct H as [Habs | Hlt].
  - now left.
  - right. now apply Z.ltb_ge.
Qed.

Lemma loop_cond_budget_spent (st : state) :
  maxIterations <= iterations st -> loop_cond maxIterations st = false.
Proof.
  intros H. unfold loop_cond.
  apply andb_false_iff. right. now apply Z.ltb_ge.
Qed.

(** With fuel for the passes the budget still allows, [while_loop] follows
    the loop to its exit. *)
Lemma while_loop_exec :
  forall (fuel : nat) (st : state),
    (Z.to_nat (maxIterations - iterations st) <= fuel)%nat ->
    exists n : nat,
      exec_loop c maxIterations st n (while_loop c maxIterations fuel st) /\
      (n <= Z.to_nat (maxIterations - iterations st))%nat /\
      iterations (while_loop c maxIterations fuel st)
      = iterations st + Z.of_nat n.
Proof.
  induction fuel as [| fuel IH]; intros st Hfuel.
  - exists O. cbn [while_loop]. repeat split; try lia.
    apply exec_exit. apply loop_cond_budget_spent. lia.
  - cbn [while_loop].
    destruct (loop_cond maxIterations st) eqn:Hcond.
    + destruct (loop_cond_true st Hcond) as [_ Hlt].
      destruct (IH (loop_body c st)) as (n & Hexec & Hn & Hit).
      { rewrite loop_body_increments. lia. }
      exists (S n). rewrite loop_body_increments in Hn, Hit.
      repeat split; try lia.
      now apply exec_pass.
    + exists O. repeat split; try lia.
      now apply exec_exit.
Qed.

Lemma exec_loop_exit_cond (st st' : state) (n : nat) :
  exec_loop c maxIterations st n st' -> loop_cond maxIterations st' = false.
Proof. induction 1; assumption. Qed.

Lemma exec_loop_deterministic (st st1 st2 : state) (n m : nat) :
  exec_loop c maxIterations st n st1 ->
  exec_loop c maxIterations st m st2 ->
  n = m /\ st1 = st2.
Proof.
  intros H1. revert m st2.
  induction H1 as [st Hc | st n st1 Hc _ IH]; intros m st2 H2.
  - inversion H2; subst; [now split | congruence].
  - inversion H2; subst; [congruence |].
    match goal with
    | Hrest : exec_loop _ _ (loop_body c st) _ st2 |- _ =>
        destruct (IH _ _ Hrest) as [-> ->]
    end.
    now split.
Qed.

Lemma loop_body_state_at (k : nat) :
  loop_body c (state_at c k) = state_at c (S k).
Proof.
  unfold loop_body, state_at. cbn [z iterations orbit].
  f_equal. lia.
Qed.

Lemma exec_loop_orbit (st st' : state) (n : nat) :
  exec_loop c maxIterations st n st' ->
  forall k : nat,
    st = state_at c k ->
    st' = state_at c (k + n) /\
    forall j : nat, (k <= j < k + n)%nat ->
      loop_cond maxIterations (state_at c j) = true.
Proof.
  induction 1 as [st Hc | st n st' Hc _ IH]; intros k ->.
  - rewrite Nat.add_0_r. split; [reflexivity | intros j Hj; lia].
  - destruct (IH (S k)) as [Hst' Hbefore].
    { apply loop_body_state_at. }
    split.
    + rewrite Hst'. f_equal. lia.
    + intros j Hj.
      destruct (Nat.eq_dec j k) as [-> | Hne]; [exact Hc |].
      apply Hbefore. lia.
Qed.

(** The loop of [iterate] leaves after [n <= maxIterations] passes, in the
    state [state_at n]. *)
Lemma iterate_exec :
  exists n : nat,
    exec_loop c maxIterations init n (state_at c n) /\
    (n <= Z.to_nat maxIterations)%nat /\
    iterate c maxIterations = Z.of_nat n.
Proof.
  destruct (while_loop_exec (Z.to_nat maxIterations) init) as (n & Hexec & Hn & Hit).
  { cbn [init iterations]. rewrite Z.sub_0_r. lia. }
  cbn [init iterations] in Hn, Hit. rewrite Z.sub_0_r in Hn.
  destruct (exec_loop_orbit _ _ _ Hexec O eq_refl) as [Hfinal _].
  cbn [Nat.add] in Hfinal.
  exists n. unfold iterate. rewrite Hfinal in Hexec.
  repeat split; try assumption; try (rewrite Hit; lia).
Qed.

End LoopFacts.

(** The postcondition of [iterate] that the code gives: the result is in
    [[0, maxIterations]]; at every earlier step the magnitude was below 2;
    and a result below the budget means that the test [std::abs(z) < 2.0]
    failed at that step. *)
Lemma iterate_postcondition (c : complex) (maxIterations : Z) :
  0 <= maxIterations ->
  exists n : nat,
    iterate c maxIterations = Z.of_nat n /\
    0 <= Z.of_nat n <= maxIterations /\
    (forall j : nat, (j < n)%nat ->
       Double.ltb (Cplx.abs (orbit c j)) two = true) /\
    (Z.of_nat n < maxIterations ->
       Double.ltb (Cplx.abs (orbit c n)) two = false).
Proof.
  intros HN.
  destruct (iterate_exec c maxIterations) as (n & Hexec & Hn & Hres).
  exists n. split; [exact Hres |]. split; [lia |]. split.
  - intros j Hj.
    destruct (exec_loop_orbit _ _ _ _ _ Hexec O eq_refl) as [_ Hbefore].
    destruct (loop_cond_true maxIterations (state_at c j)) as [Habs _].
    { apply Hbefore. lia. }
    exact Habs.
  - intros Hlt.
    pose proof (exec_loop_exit_cond _ _ _ _ _ Hexec) as Hexit.
    destruct (loop_cond_false _ _ Hexit) as [Habs | Hbudget].
    + exact Habs.
    + cbn [state_at iterations] in Hbudget. lia.
Qed.

(** C10: for every point [c] and every [maxIterations >= 0] the loop of
    [iterate] terminates: it leaves after [n <= maxIterations] passes, every
    pass adds exactly one to the counter, and the counter [n] is what
    [iterate] returns. *)
Theorem iterate_terminates (c : complex) (maxIterations : Z) :
  0 <= maxIterations ->
  (forall st : state, iterations (loop_body c st) = iterations st + 1) /\
  exists (n : nat) (final : state),
    exec_loop c maxIterations init n final /\
    Z.of_nat n <= maxIterations /\
    iterations final = Z.of_nat n /\
    iterate c maxIterations = iterations final.
Proof.
  intros HN. split; [intros st; apply loop_body_increments |].
  destruct (iterate_exec c maxIterations) as (n & Hexec & Hn & Hres).
  exists n, (state_at c n).
  repeat split; try assumption; try lia.
Qed.

Lemma iterate_terminates_witness :
  0 <= 3 /\
  exists (n : nat) (final : state),
    exec_loop Cplx.zero 3 init n final /\
    Z.of_nat n <= 3 /\
    iterations final = Z.of_nat n /\
    iterate Cplx.zero 3 = iterations final.
Proof.
  split; [lia |].
  apply (iterate_terminates Cplx.zero 3). lia.
Defined.

(* ===================================================================== *)
(** ** Facts of binary64 arithmetic used by the kernel *)

Section DoubleFacts.

Lemma compare_cont_Eq_refl (m : positive) : Pos.compare_cont Eq m m = Eq.
Proof. exact (Pos.compare_refl m). Qed.

Lemma SFcompare_finite_refl (s : bool) (m : positive) (e : Z) :
  SFcompare (S754_finite s m e) (S754_finite s m e) = Some Eq.
Proof.
  cbn [SFcompare]. rewrite Z.compare_refl, compare_cont_Eq_refl.
  now destruct s.
Qed.

(** [x == x] for every double that is not NaN and not infinite. *)
Lemma eqb_refl_finite (x : double) :
  Double.is_finite x = true -> Double.eqb x x = true.
Proof.
  unfold Double.eqb, SFeqb.
  destruct x as [s | s | | s m e]; cbn [Double.is_finite]; intros H;
    try discriminate.
  - reflexivity.
  - now rewrite SFcompare_finite_refl.
Qed.

(** [<] is asymmetric. *)
Lemma ltb_asym (x y : double) :
  Double.ltb x y = true -> Double.ltb y x = false.
Proof.
  unfold Double.ltb, SFltb.
  destruct x as [sx | sx | | sx mx ex], y as [sy | sy | | sy my ey];
    cbn [SFcompare]; try (destruct sx); try (destruct sy);
    try discriminate; try reflexivity.
  - rewrite (Z.compare_antisym ex ey).
    destruct (ex ?= ey); cbn [CompOpp]; try discriminate; try reflexivity.
    pose proof (Pos.compare_cont_antisym mx my Eq) as Hanti.
    cbn [CompOpp] in Hanti. rewrite <- Hanti.
    destruct (Pos.compare_cont Eq mx my); cbn [CompOpp];
      try discriminate; reflexivity.
  - rewrite (Z.compare_antisym ex ey).
    destruct (ex ?= ey); cbn [CompOpp]; try discriminate; try reflexivity.
    pose proof (Pos.compare_cont_antisym mx my Eq) as Hanti.
    cbn [CompOpp] in Hanti. rewrite <- Hanti.
    destruct (Pos.compare_cont Eq mx my); cbn [CompOpp];
      try discriminate; reflexivity.
Qed.

(** [0.0 + x] is [x], except that [0.0 + (-0.0)] is [0.0]. *)
Lemma add_zero_l (x : double) :
  Double.add Double.zero x = x \/
  (x = S754_zero true /\ Double.add Double.zero x = S754_zero false).
Proof.
  destruct x as [[|] | s | | s m e]; cbn; auto.
Qed.

Lemma is_finite_add_zero_l (x : double) :
  Double.is_finite (Double.add Double.zero x) = Double.is_finite x.
Proof.
  destruct (add_zero_l x) as [-> | [-> ->]]; reflexivity.
Qed.

(** The magnitude does not see the sign of a zero component. *)
Lemma hypot_add_zero_l (x y : double) :
  hypot (Double.add Double.zero x) (Double.add Double.zero y) = hypot x y.
Proof.
  destruct (add_zero_l x) as [-> | [-> ->]];
    destruct (add_zero_l y) as [-> | [-> ->]]; reflexivity.
Qed.

(** The magnitude of a point with an infinite or NaN coordinate is
    infinite or NaN: it is not below 2. *)
Lemma hypot_non_finite (x y : double) :
  Double.is_finite x && Double.is_finite y = false ->
  Double.ltb (hypot x y) two = false.
Proof.
  destruct x as [sx | sx | | sx mx ex], y as [sy | sy | | sy my ey];
    cbn [Double.is_finite andb]; intros H; try discriminate; reflexivity.
Qed.

(** A finite difference has finite operands. *)
Lemma sub_finite (x y : double) :
  Double.is_finite (Double.sub x y) = true ->
  Double.is_finite x = true /\ Double.is_finite y = true.
Proof.
  destruct x as [sx | sx | | sx mx ex], y as [sy | sy | | sy my ey];
    try (destruct sx); try (destruct sy);
    cbn [Double.sub SFsub Double.is_finite]; intros H;
    try discriminate; split; reflexivity.
Qed.

(** The conversion of a positive [int] is a positive finite double. *)
Lemma of_int_pos (n : Z) :
  0 < n -> exists m e, of_int n = S754_finite false m e.
Proof.
  destruct n as [| p | p]; intros Hn; try lia.
  unfold of_int.
  destruct (shl_align p 0 (fexp prec emax (Z.pos (digits2_pos p)))) as [m e].
  now exists m, e.
Qed.

(** [start + (0 / size) * span] compares equal to [start] when the span is
    finite, and is [start] itself unless [start] is [-0.0]. *)
Lemma interpolate_origin (start stop : double) (size : Z) :
  0 < size ->
  Double.is_finite (Double.sub stop start) = true ->
  let p := Double.add start
             (Double.mul (Double.div (of_int 0) (of_int size))
                         (Double.sub stop start)) in
  Double.eqb p start = true /\ (start <> S754_zero true -> p = start).
Proof.
  intros Hsize Hspan p. subst p.
  destruct (sub_finite _ _ Hspan) as [_ Hstart].
  destruct (of_int_pos size Hsize) as (m & e & ->).
  change (Double.div (of_int 0) (S754_finite false m e)) with (S754_zero false).
  destruct (Double.sub stop start) as [ss | ss | | ss ms es];
    cbn [Double.is_finite] in Hspan; try discriminate;
    cbn [Double.mul SFmul xorb];
    destruct start as [[|] | st | | st mt et];
    cbn [Double.is_finite] in Hstart; try discriminate;
    try (destruct ss); cbn [Double.add SFadd];
    (split; [first [ reflexivity | apply eqb_refl_finite; reflexivity ]
            | intros Hnz; first [ reflexivity | now contradiction Hnz ] ]).
Qed.

End DoubleFacts.

(* ===================================================================== *)
(** ** The first pass of the loop *)

Section FirstPass.

Variable c : complex.

(** After the first pass [z] is [0*0 + c]: the point [c], up to the sign of
    a zero coordinate. *)
Lemma orbit_1 :
  orbit c 1 =
  Cplx.mk (Double.add Double.zero (Cplx.re c))
          (Double.add Double.zero (Cplx.im c)).
Proof. reflexivity. Qed.

Lemma abs_orbit_1 : Cplx.abs (orbit c 1) = Cplx.abs c.
Proof.
  rewrite orbit_1. unfold Cplx.abs. cbn [Cplx.re Cplx.im].
  apply hypot_add_zero_l.
Qed.

Lemma abs_orbit_0 : Double.ltb (Cplx.abs (orbit c 0)) two = true.
Proof. reflexivity. Qed.

(** With a budget of at least one pass the first pass always runs; when the
    magnitude of [c] is not below 2 it is the only one. *)
Lemma iterate_one_pass (maxIterations : Z) :
  1 <= maxIterations ->
  Double.ltb (Cplx.abs c) two = false ->
  iterate c maxIterations = 1.
Proof.
  intros HN Habs.
  destruct (iterate_postcondition c maxIterations ltac:(lia))
    as (n & Hres & Hrange & Hbefore & Hexit).
  rewrite Hres.
  destruct n as [| [| n]].
  - specialize (Hexit ltac:(lia)). rewrite abs_orbit_0 in Hexit. discriminate.
  - reflexivity.
  - specialize (Hbefore 1%nat ltac:(lia)).
    rewrite abs_orbit_1 in Hbefore. congruence.
Qed.

Lemma iterate_budget_one : iterate c 1 = 1.
Proof.
  destruct (iterate_postcondition c 1 ltac:(lia))
    as (n & Hres & Hrange & _ & Hexit).
  rewrite Hres.
  destruct n as [| [| n]]; try lia.
  specialize (Hexit ltac:(lia)). rewrite abs_orbit_0 in Hexit. discriminate.
Qed.

Lemma iterate_no_budget (maxIterations : Z) :
  maxIterations <= 0 -> iterate c maxIterations = 0.
Proof.
  intros HN. unfold iterate.
  replace (Z.to_nat maxIterations) with O by lia.
  reflexivity.
Qed.

End FirstPass.

(** The origin is a fixed point of the recurrence under [c = 0]. *)
Lemma orbit_origin (k : nat) : orbit Cplx.zero k = Cplx.zero.
Proof.
  induction k as [| k IH]; [reflexivity |].
  cbn [orbit]. rewrite IH. reflexivity.
Qed.

(** C5: for every [maxIterations >= 0], [iterate] at the origin [0+0i]
    returns exactly [maxIterations]. *)
Theorem iterate_origin (maxIterations : Z) :
  0 <= maxIterations -> iterate Cplx.zero maxIterations = maxIterations.
Proof.
  intros HN.
  destruct (iterate_postcondition Cplx.zero maxIterations HN)
    as (n & Hres & Hrange & _ & Hexit).
  rewrite Hres.
  destruct (Z.eq_dec (Z.of_nat n) maxIterations) as [Heq | Hne];
    [exact Heq |].
  specialize (Hexit ltac:(lia)).
  rewrite orbit_origin in Hexit. discriminate.
Qed.

Lemma iterate_origin_witness : iterate Cplx.zero 100 = 100.
Proof. apply (iterate_origin 100). lia. Defined.

(** C2, as the code has it: for every point [c] whose magnitude
    [std::abs(c)] is above 2 and every budget [maxIterations >= 1],
    [iterate] returns 1; the result is strictly below the budget exactly
    when [maxIterations >= 2]. *)
Theorem iterate_outside_radius (c : complex) (maxIterations : Z) :
  Double.ltb two (Cplx.abs c) = true ->
  1 <= maxIterations ->
  iterate c maxIterations = 1 /\
  (iterate c maxIterations < maxIterations <-> 2 <= maxIterations).
Proof.
  intros Habs HN.
  assert (Hone : iterate c maxIterations = 1).
  { apply iterate_one_pass; [exact HN | now apply ltb_asym]. }
  rewrite Hone. split; [reflexivity | lia].
Qed.

Lemma iterate_outside_radius_witness :
  iterate (Cplx.mk (of_int 3) Double.zero) 100 = 1 /\
  (iterate (Cplx.mk (of_int 3) Double.zero) 100 < 100 <-> 2 <= 100).
Proof.
  apply (iterate_outside_radius (Cplx.mk (of_int 3) Double.zero) 100).
  - reflexivity.
  - lia.
Defined.

(** C2 as stated fails at the budget 1: the point [3+0i] has magnitude 3,
    above 2, and [iterate] returns 1, which is not below the budget. *)
Lemma iterate_outside_radius_budget_one :
  Double.ltb two (Cplx.abs (Cplx.mk (of_int 3) Double.zero)) = true /\
  1 <= 1 /\
  ~ iterate (Cplx.mk (of_int 3) Double.zero) 1 < 1.
Proof.
  split; [reflexivity |]. split; [lia |].
  rewrite iterate_budget_one. lia.
Qed.

(* ===================================================================== *)
(** ** The boundary of the escape test *)

(** The orbit of [-2]: [0, -2, 2, 2, ...]; from the second pass on it sits
    at the fixed point [2]. *)
Lemma orbit_boundary_point (k : nat) :
  orbit boundary_point (S (S k)) = Cplx.mk two Double.zero.
Proof.
  induction k as [| k IH]; [reflexivity |].
  change (orbit boundary_point (S (S (S k))))
    with (Cplx.add (Cplx.mul (orbit boundary_point (S (S k)))
                             (orbit boundary_point (S (S k))))
                   boundary_point).
  rewrite IH. reflexivity.
Qed.

(** C3 at the point [-2+0i], the pixel [(0, 400)] of [main]: [mandelbrot]
    returns 1, below the budget 100, although the magnitude after that pass
    is exactly 2 and never exceeds 2 at any step: the orbit stays bounded,
    and the test [std::abs(z) < 2.0] ends the loop when the magnitude only
    reaches 2. *)
Theorem mandelbrot_boundary_point :
  mapPixelToPoint 0 400 source_viewport = boundary_point /\
  mandelbrot boundary_point = 1 /\
  mandelbrot boundary_point < MAX_ITERATIONS /\
  Cplx.abs (orbit boundary_point 1) = two /\
  (forall k : nat,
     Double.ltb two (Cplx.abs (orbit boundary_point k)) = false).
Proof.
  split; [vm_compute; reflexivity |].
  split; [vm_compute; reflexivity |].
  split; [vm_compute; reflexivity |].
  split; [vm_compute; reflexivity |].
  intros [| [| k]]; [reflexivity | reflexivity |].
  rewrite orbit_boundary_point. reflexivity.
Qed.

(* ===================================================================== *)
(** ** Invalid configurations *)

(** C4, as the code has it: no configuration is rejected.  An invalid call
    of [iterate] (a coordinate that is infinite or NaN, or a budget that is
    not positive) returns a count: 0 when the budget is not positive, else 1;
    [mapPixelToPoint] applies its formula to any indices and any viewport. *)
Theorem invalid_arguments_not_rejected
  (c : complex) (maxIterations x y : Z) (vp : ViewportSpec) :
  invalid_iterate_args c maxIterations = true ->
  call_iterate c maxIterations
  = Returned (if maxIterations <=? 0 then 0 else 1) /\
  call_mapPixelToPoint x y vp = Returned (spec_mapPixelToPoint x y vp).
Proof.
  intros Hinvalid. split; [| reflexivity].
  unfold call_iterate. f_equal.
  destruct (Z.leb_spec maxIterations 0) as [Hle | Hgt].
  - now apply iterate_no_budget.
  - unfold invalid_iterate_args in Hinvalid.
    apply orb_true_iff in Hinvalid. destruct Hinvalid as [Hnf | Hbudget].
    + apply iterate_one_pass; [lia |].
      apply hypot_non_finite.
      apply negb_true_iff in Hnf. exact Hnf.
    + apply Z.leb_le in Hbudget. lia.
Qed.

Lemma invalid_arguments_not_rejected_witness :
  call_iterate nan_point (-5) = Returned 0 /\
  call_mapPixelToPoint (-1) 900 source_viewport
  = Returned (spec_mapPixelToPoint (-1) 900 source_viewport).
Proof.
  apply (invalid_arguments_not_rejected nan_point (-5) (-1) 900 source_viewport).
  reflexivity.
Defined.

(** C4 as stated fails: a point with a NaN coordinate is an invalid
    configuration, and the call returns the count 1 instead of a
    precondition violation; so does a pixel outside the grid. *)
Lemma nan_point_not_rejected :
  invalid_iterate_args nan_point MAX_ITERATIONS = true /\
  call_iterate nan_point MAX_ITERATIONS = Returned 1 /\
  call_iterate nan_point MAX_ITERATIONS <> PreconditionViolation /\
  invalid_pixel_args (-1) 900 source_viewport = true /\
  call_mapPixelToPoint (-1) 900 source_viewport <> PreconditionViolation.
Proof.
  split; [reflexivity |].
  split; [vm_compute; reflexivity |].
  split; [discriminate |].
  split; [reflexivity | discriminate].
Qed.

(* ===================================================================== *)
(** ** The pixel map *)

(** C6, as the code has it: for every pixel of the grid [mapPixelToPoint]
    computes, in double arithmetic, [re = reStart + (x / width) * (reEnd -
    reStart)] and [im = imStart + (y / height) * (imEnd - imStart)]; and when
    the two spans [reEnd - reStart] and [imEnd - imStart] are finite the
    pixel [(0, 0)] maps to a point that compares equal to [(reStart,
    imStart)], and is that very point unless a start bound is [-0.0]. *)
Theorem mapPixelToPoint_interpolates (x y : Z) (vp : ViewportSpec) :
  0 <= x < width vp ->
  0 <= y < height vp ->
  Double.is_finite (Double.sub (reEnd vp) (reStart vp)) = true ->
  Double.is_finite (Double.sub (imEnd vp) (imStart vp)) = true ->
  mapPixelToPoint x y vp = spec_mapPixelToPoint x y vp /\
  Double.eqb (Cplx.re (mapPixelToPoint 0 0 vp)) (reStart vp) = true /\
  Double.eqb (Cplx.im (mapPixelToPoint 0 0 vp)) (imStart vp) = true /\
  (reStart vp <> S754_zero true -> imStart vp <> S754_zero true ->
   mapPixelToPoint 0 0 vp = Cplx.mk (reStart vp) (imStart vp)).
Proof.
  intros Hx Hy Hre Him.
  split; [reflexivity |].
  destruct (interpolate_origin (reStart vp) (reEnd vp) (width vp)
              ltac:(lia) Hre) as [Hre_eq Hre_id].
  destruct (interpolate_origin (imStart vp) (imEnd vp) (height vp)
              ltac:(lia) Him) as [Him_eq Him_id].
  unfold mapPixelToPoint. cbn [Cplx.re Cplx.im].
  split; [exact Hre_eq |]. split; [exact Him_eq |].
  intros Hre_nz Him_nz.
  rewrite (Hre_id Hre_nz), (Him_id Him_nz). reflexivity.
Qed.

Lemma mapPixelToPoint_interpolates_witness :
  mapPixelToPoint 10 20 source_viewport
  = spec_mapPixelToPoint 10 20 source_viewport /\
  Double.eqb (Cplx.re (mapPixelToPoint 0 0 source_viewport)) RE_START = true /\
  Double.eqb (Cplx.im (mapPixelToPoint 0 0 source_viewport)) IM_START = true /\
  (RE_START <> S754_zero true -> IM_START <> S754_zero true ->
   mapPixelToPoint 0 0 source_viewport = Cplx.mk RE_START IM_START).
Proof.
  apply (mapPixelToPoint_interpolates 10 20 source_viewport).
  - change (0 <= 10 < 800). lia.
  - change (0 <= 20 < 800). lia.
  - reflexivity.
  - reflexivity.
Defined.

(** C6 as stated fails on a viewport whose span overflows: with the bounds
    [-DBL_MAX] and [DBL_MAX] the span is infinite, [0 * inf] is NaN, and the
    pixel [(0, 0)] maps to a NaN real part instead of [reStart]. *)
Lemma mapPixelToPoint_origin_overflow :
  valid_viewport wide_viewport = true /\
  Double.is_finite (reStart wide_viewport) = true /\
  Double.is_finite (reEnd wide_viewport) = true /\
  Cplx.re (mapPixelToPoint 0 0 wide_viewport) = S754_nan /\
  Double.eqb (Cplx.re (mapPixelToPoint 0 0 wide_viewport))
             (reStart wide_viewport) = false /\
  mapPixelToPoint 0 0 wide_viewport
  <> Cplx.mk (reStart wide_viewport) (imStart wide_viewport).
Proof.
  repeat (split; [vm_compute; reflexivity |]).
  vm_compute. discriminate.
Qed.

(* ===================================================================== *)
(** ** The scenario of the tutorial: 800 x 800 pixels, budget 100 *)

(** The pixel [(0, 0)] is the point [(-2.0, -1.5)], outside the set: it
    leaves after the first pass and gets the first colour of the gradient. *)
Example pixel_0_0_escapes :
  mandelbrot (mapPixelToPoint 0 0 source_viewport) = 1 /\
  pixel_color 0 0 = Color.mk 5 10 15 255.
Proof. split; vm_compute; reflexivity. Qed.

(** The pixel [(533, 400)], next to the origin, is inside the set: black. *)
Example pixel_centre_black :
  mandelbrot (mapPixelToPoint 533 400 source_viewport) = MAX_ITERATIONS /\
  pixel_color 533 400 = Color.Black.
Proof. split; vm_compute; reflexivity. Qed.

(** The pixel [(583, 250)] escapes at the pass 51 and is painted black, the
    colour of the points that never escape. *)
Example pixel_583_250_escapes_black :
  mandelbrot (mapPixelToPoint 583 250 source_viewport) = 51 /\
  pixel_color 583 250 = Color.Black.
Proof. split; vm_compute; reflexivity. Qed.

(* ===================================================================== *)
(** ** More on the escape-time loop *)

Lemma mandelbrot_count_range (c : complex) :
  1 <= mandelbrot c <= MAX_ITERATIONS.
Proof.
  unfold mandelbrot.
  destruct (iterate_postcondition c MAX_ITERATIONS ltac:(unfold MAX_ITERATIONS; lia))
    as (n & Hres & Hrange & _ & Hexit).
  rewrite Hres. split; [| lia].
  destruct n as [| n]; [| lia].
  specialize (Hexit ltac:(unfold MAX_ITERATIONS; lia)).
  rewrite abs_orbit_0 in Hexit. discriminate.
Qed.

(** The first pass cannot be skipped and the budget cannot be exceeded:
    whatever the point, also with infinite or NaN coordinates, [mandelbrot]
    returns a count between 1 and [MAX_ITERATIONS].  The count 0, and with it
    the colour of count 0, never occurs. *)
Theorem mandelbrot_range (c : complex) :
  1 <= mandelbrot c <= MAX_ITERATIONS.
Proof. exact (mandelbrot_count_range c). Qed.

Lemma iterate_characterised (c : complex) (maxIterations : Z) (n : nat) :
  0 <= maxIterations ->
  iterate c maxIterations = Z.of_nat n <->
  (Z.of_nat n <= maxIterations /\
   (forall j : nat, (j < n)%nat ->
      Double.ltb (Cplx.abs (orbit c j)) two = true) /\
   (Z.of_nat n < maxIterations ->
      Double.ltb (Cplx.abs (orbit c n)) two = false)).
Proof.
  intros HN.
  destruct (iterate_postcondition c maxIterations HN)
    as (m & Hres & Hrange & Hbefore & Hexit).
  rewrite Hres. split.
  - intros Heq. apply Nat2Z.inj in Heq. subst m.
    repeat split; [lia | exact Hbefore | exact Hexit].
  - intros (Hn & Hbefore' & Hexit').
    f_equal.
    destruct (Nat.lt_trichotomy m n) as [Hlt | [Heq | Hgt]];
      [exfalso | exact Heq | exfalso].
    + specialize (Hbefore' m Hlt). specialize (Hexit ltac:(lia)). congruence.
    + specialize (Hbefore n Hgt). specialize (Hexit' ltac:(lia)). congruence.
Qed.

(** [iterate] finds the first step at which the test [std::abs(z) < 2.0]
    fails: its result is the only [n <= maxIterations] such that the test
    holds at every step before [n] and, when [n] is below the budget, fails
    at step [n]. *)
Theorem iterate_first_exit (c : complex) (maxIterations : Z) (n : nat) :
  0 <= maxIterations ->
  iterate c maxIterations = Z.of_nat n <->
  (Z.of_nat n <= maxIterations /\
   (forall j : nat, (j < n)%nat ->
      Double.ltb (Cplx.abs (orbit c j)) two = true) /\
   (Z.of_nat n < maxIterations ->
      Double.ltb (Cplx.abs (orbit c n)) two = false)).
Proof. exact (iterate_characterised c maxIterations n). Qed.

Lemma iterate_first_exit_witness :
  iterate Cplx.zero 7 = Z.of_nat 7 <->
  (Z.of_nat 7 <= 7 /\
   (forall j : nat, (j < 7)%nat ->
      Double.ltb (Cplx.abs (orbit Cplx.zero j)) two = true) /\
   (Z.of_nat 7 < 7 ->
      Double.ltb (Cplx.abs (orbit Cplx.zero 7)) two = false)).
Proof. apply (iterate_first_exit Cplx.zero 7 7). lia. Defined.

(** The count 1 marks the points that are not inside the circle of radius
    2: [mandelbrot] returns 1 exactly when the test [std::abs(c) < 2.0] is
    false for the point itself (its magnitude is at least 2, or is NaN). *)
Theorem mandelbrot_one_iff (c : complex) :
  mandelbrot c = 1 <-> Double.ltb (Cplx.abs c) two = false.
Proof.
  unfold mandelbrot. split.
  - intros Hone.
    apply (iterate_characterised c MAX_ITERATIONS 1%nat) in Hone;
      [| unfold MAX_ITERATIONS; lia].
    destruct Hone as (_ & _ & Hexit).
    rewrite <- (abs_orbit_1 c). apply Hexit. unfold MAX_ITERATIONS. lia.
  - intros Habs. apply iterate_one_pass; [unfold MAX_ITERATIONS; lia | exact Habs].
Qed.

(** A larger budget never changes what a smaller one found: the count under
    the budget [small] is the count under any budget [large >= small], cut
    at [small].  In particular a point that escapes keeps its count when the
    budget grows. *)
Theorem iterate_budget_monotone (c : complex) (small large : Z) :
  0 <= small <= large ->
  iterate c small = Z.min small (iterate c large) /\
  (iterate c small < small -> iterate c large = iterate c small).
Proof.
  intros [Hsmall Hle].
  destruct (iterate_postcondition c small Hsmall)
    as (n & Hn & Hnr & Hnb & Hne).
  destruct (iterate_postcondition c large ltac:(lia))
    as (m & Hm & Hmr & Hmb & Hme).
  rewrite Hn, Hm.
  assert (Hcases : (Z.of_nat n < small /\ m = n) \/
                   (Z.of_nat n = small /\ (n <= m)%nat)).
  { destruct (Z.eq_dec (Z.of_nat n) small) as [Heq | Hne'].
    - right. split; [exact Heq |].
      destruct (Nat.le_gt_cases n m) as [Hnm | Hnm]; [exact Hnm | exfalso].
      specialize (Hnb m Hnm). specialize (Hme ltac:(lia)). congruence.
    - left. split; [lia |].
      specialize (Hne ltac:(lia)).
      destruct (Nat.lt_trichotomy m n) as [Hlt | [Heq | Hgt]];
        [exfalso | exact Heq | exfalso].
      + specialize (Hnb m Hlt). specialize (Hme ltac:(lia)). congruence.
      + specialize (Hmb n Hgt). congruence. }
  destruct Hcases as [[Hlt ->] | [Heq Hnm]]; split; lia.
Qed.

Lemma iterate_budget_monotone_witness :
  iterate (Cplx.mk (of_int 3) Double.zero) 3
  = Z.min 3 (iterate (Cplx.mk (of_int 3) Double.zero) 100) /\
  (iterate (Cplx.mk (of_int 3) Double.zero) 3 < 3 ->
   iterate (Cplx.mk (of_int 3) Double.zero) 100
   = iterate (Cplx.mk (of_int 3) Double.zero) 3).
Proof.
  apply (iterate_budget_monotone (Cplx.mk (of_int 3) Double.zero) 3 100). lia.
Defined.

(* ===================================================================== *)
(** ** More on the colour policy *)

Section Gradient.

Variables iterationResult maxIterations : Z.
Hypothesis Hcount : 0 <= iterationResult.
Hypothesis Hfit : iterationResult * 15 <= INT_MAX.

(** The colour of a count that is not the budget, channel by channel. *)
Lemma colorize_escaped_channels :
  iterationResult <> maxIterations ->
  colorize iterationResult maxIterations =
  Color.mk ((iterationResult * 5) mod 255)
           ((iterationResult * 10) mod 255)
           ((iterationResult * 15) mod 255)
           255.
Proof.
  intros Hne. rewrite colorize_escaped by exact Hne.
  unfold Color.rgb. rewrite !channel_value by lia. reflexivity.
Qed.

End Gradient.

Lemma times_5_mod_255 (n : Z) : (n * 5) mod 255 = 0 -> n mod 51 = 0.
Proof.
  intros H. apply Z.mod_divide in H; [| lia]. destruct H as [q Hq].
  apply Z.mod_divide; [lia |]. exists q. lia.
Qed.

Lemma multiple_of_51_mod_255 (n k : Z) :
  n mod 51 = 0 -> (n * (5 * k)) mod 255 = 0.
Proof.
  intros H. apply Z.mod_divide in H; [| lia]. destruct H as [q Hq].
  apply Z.mod_divide; [lia |]. exists (q * k). lia.
Qed.

Lemma escaped_black_iff (iterationResult maxIterations : Z) :
  0 <= iterationResult ->
  iterationResult * 15 <= INT_MAX ->
  iterationResult <> maxIterations ->
  colorize iterationResult maxIterations = Color.Black <->
  iterationResult mod 51 = 0.
Proof.
  intros Hcount Hfit Hne.
  rewrite (colorize_escaped_channels _ _ Hcount Hfit Hne).
  unfold Color.Black. split.
  - intros Heq. injection Heq as Hr _ _. now apply times_5_mod_255.
  - intros Hmod.
    rewrite (multiple_of_51_mod_255 iterationResult 1 Hmod : (iterationResult * 5) mod 255 = 0).
    rewrite (multiple_of_51_mod_255 iterationResult 2 Hmod : (iterationResult * 10) mod 255 = 0).
    rewrite (multiple_of_51_mod_255 iterationResult 3 Hmod : (iterationResult * 15) mod 255 = 0).
    reflexivity.
Qed.

(** An escaped count is painted black, the colour kept for the points
    inside the set, exactly when it is a multiple of 51 (51 * 5 = 255). *)
Theorem colorize_escaped_black_iff (iterationResult maxIterations : Z) :
  0 <= iterationResult ->
  iterationResult * 15 <= INT_MAX ->
  iterationResult <> maxIterations ->
  colorize iterationResult maxIterations = Color.Black <->
  iterationResult mod 51 = 0.
Proof. exact (escaped_black_iff iterationResult maxIterations). Qed.

Lemma colorize_escaped_black_iff_witness :
  colorize 102 1000 = Color.Black <-> 102 mod 51 = 0.
Proof.
  apply (colorize_escaped_black_iff 102 1000); unfold INT_MAX; lia.
Defined.

(** The gradient cycles with period 51: two escaped counts that differ by 51
    get the same colour, so the policy has at most 51 gradient colours. *)
Theorem colorize_period_51 (iterationResult maxIterations : Z) :
  0 <= iterationResult ->
  (iterationResult + 51) * 15 <= INT_MAX ->
  iterationResult <> maxIterations ->
  iterationResult + 51 <> maxIterations ->
  colorize (iterationResult + 51) maxIterations
  = colorize iterationResult maxIterations.
Proof.
  intros Hcount Hfit Hne Hne'.
  rewrite (colorize_escaped_channels (iterationResult + 51) maxIterations)
    by (try assumption; lia).
  rewrite (colorize_escaped_channels iterationResult maxIterations)
    by (try assumption; lia).
  replace ((iterationResult + 51) * 5) with (iterationResult * 5 + 1 * 255) by lia.
  replace ((iterationResult + 51) * 10) with (iterationResult * 10 + 2 * 255) by lia.
  replace ((iterationResult + 51) * 15) with (iterationResult * 15 + 3 * 255) by lia.
  now rewrite !Z.mod_add by lia.
Qed.

Lemma colorize_period_51_witness :
  colorize (7 + 51) 100 = colorize 7 100.
Proof.
  apply (colorize_period_51 7 100); unfold INT_MAX; lia.
Defined.

(** Two escaped counts get the same colour exactly when they differ by a
    multiple of 51: the policy has 51 gradient colours, one for each residue
    of the count modulo 51. *)
Theorem colorize_same_colour_iff (count count' maxIterations : Z) :
  0 <= count -> 0 <= count' ->
  count * 15 <= INT_MAX -> count' * 15 <= INT_MAX ->
  count <> maxIterations -> count' <> maxIterations ->
  colorize count maxIterations = colorize count' maxIterations <->
  count mod 51 = count' mod 51.
Proof.
  intros Hc Hc' Hfit Hfit' Hne Hne'.
  rewrite (colorize_escaped_channels count maxIterations Hc Hfit Hne).
  rewrite (colorize_escaped_channels count' maxIterations Hc' Hfit' Hne').
  split.
  - intros Heq. injection Heq as Hr _ _.
    pose proof (Z.div_mod (count * 5) 255 ltac:(lia)) as Hd.
    pose proof (Z.div_mod (count' * 5) 255 ltac:(lia)) as Hd'.
    rewrite Hr in Hd.
    replace count
      with (count' + ((count * 5) / 255 - (count' * 5) / 255) * 51) by lia.
    apply Z.mod_add. lia.
  - intros Hmod.
    pose proof (Z.div_mod count 51 ltac:(lia)) as Hd.
    pose proof (Z.div_mod count' 51 ltac:(lia)) as Hd'.
    rewrite Hmod in Hd.
    set (k := count / 51 - count' / 51).
    assert (Hk : count = count' + k * 51) by (subst k; lia).
    rewrite Hk.
    replace ((count' + k * 51) * 5) with (count' * 5 + k * 255) by lia.
    replace ((count' + k * 51) * 10) with (count' * 10 + (2 * k) * 255) by lia.
    replace ((count' + k * 51) * 15) with (count' * 15 + (3 * k) * 255) by lia.
    now rewrite !Z.mod_add by lia.
Qed.

Lemma colorize_same_colour_iff_witness :
  colorize 3 100 = colorize 54 100 <-> 3 mod 51 = 54 mod 51.
Proof.
  apply (colorize_same_colour_iff 3 54 100); unfold INT_MAX; lia.
Defined.

(** No channel of a colour reaches 255 and every colour is opaque: for a
    count whose products fit in an [int] the three channels lie in
    [[0, 254]] and alpha is 255. *)
Theorem colorize_channels_at_most_254 (iterationResult maxIterations : Z) :
  0 <= iterationResult ->
  iterationResult * 15 <= INT_MAX ->
  let col := colorize iterationResult maxIterations in
  0 <= Color.r col <= 254 /\
  0 <= Color.g col <= 254 /\
  0 <= Color.b col <= 254 /\
  Color.a col = 255.
Proof.
  intros Hcount Hfit col. subst col.
  destruct (Z.eq_dec iterationResult maxIterations) as [-> | Hne].
  - unfold colorize. rewrite Z.eqb_refl. cbn. lia.
  - rewrite (colorize_escaped_channels _ _ Hcount Hfit Hne).
    cbn [Color.r Color.g Color.b Color.a].
    pose proof (Z.mod_pos_bound (iterationResult * 5) 255 ltac:(lia)).
    pose proof (Z.mod_pos_bound (iterationResult * 10) 255 ltac:(lia)).
    pose proof (Z.mod_pos_bound (iterationResult * 15) 255 ltac:(lia)).
    lia.
Qed.

Lemma colorize_channels_at_most_254_witness :
  let col := colorize 77 100 in
  0 <= Color.r col <= 254 /\
  0 <= Color.g col <= 254 /\
  0 <= Color.b col <= 254 /\
  Color.a col = 255.
Proof.
  apply (colorize_channels_at_most_254 77 100); unfold INT_MAX; lia.
Defined.

(** In the picture [main] draws, a pixel is black exactly when its point
    used up the whole budget or escaped at the pass 51. *)
Theorem pixel_color_black_iff (x y : Z) :
  pixel_color x y = Color.Black <->
  mandelbrot (mapPixelToPoint x y source_viewport) = MAX_ITERATIONS \/
  mandelbrot (mapPixelToPoint x y source_viewport) = 51.
Proof.
  unfold pixel_color.
  pose proof (mandelbrot_count_range (mapPixelToPoint x y source_viewport)) as Hrange.
  set (count := mandelbrot (mapPixelToPoint x y source_viewport)) in *.
  unfold MAX_ITERATIONS in *.
  destruct (Z.eq_dec count 100) as [-> | Hne].
  - split; [now left | reflexivity].
  - rewrite escaped_black_iff
      by (try assumption; unfold INT_MAX; lia).
    split.
    + intros Hmod. right.
      pose proof (Z.div_mod count 51 ltac:(lia)) as Hdiv. lia.
    + intros [Heq | Heq]; [contradiction | subst count; rewrite Heq; reflexivity].
Qed.

(* ===================================================================== *)
(** ** The grid of points of [main] *)

Section Tabulate.

Context {A : Type}.

Lemma pairwise_nth (rel : A -> A -> bool) (d : A) :
  forall (l : list A),
    pairwise rel l = true ->
    forall i j : nat, (i < j < length l)%nat ->
      rel (nth i l d) (nth j l d) = true.
Proof.
  induction l as [| a l IH]; intros Hpw i j Hij; cbn [length] in Hij; [lia |].
  cbn [pairwise] in Hpw. apply andb_true_iff in Hpw. destruct Hpw as [Hall Hrest].
  destruct j as [| j]; [lia |].
  destruct i as [| i]; cbn [nth].
  - rewrite forallb_forall in Hall. apply Hall. apply nth_In. lia.
  - apply IH; [exact Hrest | lia].
Qed.

Lemma tabulate_length (f : Z -> A) (n : nat) : length (tabulate f n) = n.
Proof. unfold tabulate. now rewrite length_map, length_seq. Qed.

Lemma tabulate_nth (f : Z -> A) (n : nat) (d : A) (x : Z) :
  0 <= x < Z.of_nat n -> nth (Z.to_nat x) (tabulate f n) d = f x.
Proof.
  intros Hx. unfold tabulate.
  rewrite (nth_indep _ d (f (Z.of_nat 0))) by (rewrite length_map, length_seq; lia).
  rewrite (map_nth (fun i => f (Z.of_nat i)) (seq 0 n) O).
  rewrite seq_nth by lia. cbn [Nat.add]. f_equal. lia.
Qed.

Lemma pairwise_tabulate (rel : A -> A -> bool) (f : Z -> A) (n : nat) :
  pairwise rel (tabulate f n) = true ->
  forall x x' : Z, 0 <= x < x' -> x' < Z.of_nat n -> rel (f x) (f x') = true.
Proof.
  intros Hpw x x' Hx Hx'.
  rewrite <- (tabulate_nth f n (f 0) x) by lia.
  rewrite <- (tabulate_nth f n (f 0) x') by lia.
  apply pairwise_nth; [exact Hpw |].
  rewrite tabulate_length. lia.
Qed.

Lemma forallb_tabulate (test : A -> bool) (f : Z -> A) (n : nat) :
  forallb test (tabulate f n) = true ->
  forall x : Z, 0 <= x < Z.of_nat n -> test (f x) = true.
Proof.
  intros Hall x Hx. rewrite forallb_forall in Hall.
  apply Hall. rewrite <- (tabulate_nth f n (f 0) x) by lia.
  apply nth_In. rewrite tabulate_length. lia.
Qed.

End Tabulate.

Lemma ltb_irrefl (x : double) : Double.ltb x x = false.
Proof.
  destruct (Double.ltb x x) eqn:H; [| reflexivity].
  now rewrite (ltb_asym x x H) in H.
Qed.

Lemma pixel_re_columns : pairwise Double.ltb (tabulate pixel_re 800) = true.
Proof. vm_compute. reflexivity. Qed.

Lemma pixel_im_rows : pairwise Double.ltb (tabulate pixel_im 800) = true.
Proof. vm_compute. reflexivity. Qed.

Lemma pixel_re_inside :
  forallb (fun v => leb RE_START v && Double.ltb v RE_END)
          (tabulate pixel_re 800) = true.
Proof. vm_compute. reflexivity. Qed.

Lemma pixel_im_inside :
  forallb (fun v => leb IM_START v && Double.ltb v IM_END)
          (tabulate pixel_im 800) = true.
Proof. vm_compute. reflexivity. Qed.

(** On the 800 x 800 grid of [main] the real part grows strictly from one
    column to the next ones and the imaginary part from one row to the next
    ones, rounding included. *)
Theorem pixel_grid_increasing (x x' y y' : Z) :
  0 <= x < x' -> x' < WIDTH ->
  0 <= y < y' -> y' < HEIGHT ->
  Double.ltb (Cplx.re (mapPixelToPoint x y source_viewport))
             (Cplx.re (mapPixelToPoint x' y' source_viewport)) = true /\
  Double.ltb (Cplx.im (mapPixelToPoint x y source_viewport))
             (Cplx.im (mapPixelToPoint x' y' source_viewport)) = true.
Proof.
  intros Hx Hx' Hy Hy'. split.
  - exact (pairwise_tabulate Double.ltb pixel_re 800 pixel_re_columns x x' Hx Hx').
  - exact (pairwise_tabulate Double.ltb pixel_im 800 pixel_im_rows y y' Hy Hy').
Qed.

Lemma pixel_grid_increasing_witness :
  Double.ltb (Cplx.re (mapPixelToPoint 3 5 source_viewport))
             (Cplx.re (mapPixelToPoint 4 799 source_viewport)) = true /\
  Double.ltb (Cplx.im (mapPixelToPoint 3 5 source_viewport))
             (Cplx.im (mapPixelToPoint 4 799 source_viewport)) = true.
Proof.
  apply (pixel_grid_increasing 3 4 5 799); unfold WIDTH, HEIGHT; lia.
Defined.

(** Distinct pixels of the grid of [main] are distinct points of the plane:
    no two pixels evaluate the same point. *)
Theorem pixel_grid_injective (x y x' y' : Z) :
  0 <= x < WIDTH -> 0 <= y < HEIGHT ->
  0 <= x' < WIDTH -> 0 <= y' < HEIGHT ->
  mapPixelToPoint x y source_viewport = mapPixelToPoint x' y' source_viewport ->
  x = x' /\ y = y'.
Proof.
  intros Hx Hy Hx' Hy' Heq.
  assert (Hre : pixel_re x = pixel_re x').
  { change (Cplx.re (mapPixelToPoint x y source_viewport)
            = Cplx.re (mapPixelToPoint x' y' source_viewport)).
    now rewrite Heq. }
  assert (Him : pixel_im y = pixel_im y').
  { change (Cplx.im (mapPixelToPoint x y source_viewport)
            = Cplx.im (mapPixelToPoint x' y' source_viewport)).
    now rewrite Heq. }
  split.
  - destruct (Z.lt_trichotomy x x') as [Hlt | [Heq' | Hgt]]; [exfalso | exact Heq' | exfalso].
    + pose proof (pairwise_tabulate Double.ltb pixel_re 800 pixel_re_columns x x'
                    ltac:(lia) ltac:(unfold WIDTH in *; lia)) as H.
      rewrite Hre, ltb_irrefl in H. discriminate.
    + pose proof (pairwise_tabulate Double.ltb pixel_re 800 pixel_re_columns x' x
                    ltac:(lia) ltac:(unfold WIDTH in *; lia)) as H.
      rewrite Hre, ltb_irrefl in H. discriminate.
  - destruct (Z.lt_trichotomy y y') as [Hlt | [Heq' | Hgt]]; [exfalso | exact Heq' | exfalso].
    + pose proof (pairwise_tabulate Double.ltb pixel_im 800 pixel_im_rows y y'
                    ltac:(lia) ltac:(unfold HEIGHT in *; lia)) as H.
      rewrite Him, ltb_irrefl in H. discriminate.
    + pose proof (pairwise_tabulate Double.ltb pixel_im 800 pixel_im_rows y' y
                    ltac:(lia) ltac:(unfold HEIGHT in *; lia)) as H.
      rewrite Him, ltb_irrefl in H. discriminate.
Qed.

Lemma pixel_grid_injective_witness : 0 = 0 /\ 400 = 400.
Proof.
  apply (pixel_grid_injective 0 400 0 400);
    try (unfold WIDTH, HEIGHT; lia); reflexivity.
Defined.

(** Every pixel of the grid of [main] is a point of the viewport: the start
    edges are reached, the end edges are not. *)
Theorem pixel_grid_inside_viewport (x y : Z) :
  0 <= x < WIDTH -> 0 <= y < HEIGHT ->
  let p := mapPixelToPoint x y source_viewport in
  leb RE_START (Cplx.re p) = true /\ Double.ltb (Cplx.re p) RE_END = true /\
  leb IM_START (Cplx.im p) = true /\ Double.ltb (Cplx.im p) IM_END = true.
Proof.
  intros Hx Hy p. subst p.
  pose proof (forallb_tabulate _ pixel_re 800 pixel_re_inside x
                ltac:(unfold WIDTH in *; lia)) as Hre.
  pose proof (forallb_tabulate _ pixel_im 800 pixel_im_inside y
                ltac:(unfold HEIGHT in *; lia)) as Him.
  cbv beta in Hre, Him.
  apply andb_true_iff in Hre. apply andb_true_iff in Him.
  destruct Hre as [Hre1 Hre2]. destruct Him as [Him1 Him2].
  repeat split; assumption.
Qed.

Lemma pixel_grid_inside_viewport_witness :
  let p := mapPixelToPoint 799 799 source_viewport in
  leb RE_START (Cplx.re p) = true /\ Double.ltb (Cplx.re p) RE_END = true /\
  leb IM_START (Cplx.im p) = true /\ Double.ltb (Cplx.im p) IM_END = true.
Proof.
  apply (pixel_grid_inside_viewport 799 799); unfold WIDTH, HEIGHT; lia.
Defined.

(* ===================================================================== *)
(** ** The pixel loops *)

Section PixelBuffer.

Lemma update_length (l : list Color.t) (i : nat) (col : Color.t) :
  length (Image.update l i col) = length l.
Proof.
  revert i. induction l as [| old l IH]; intros [| i]; cbn; congruence.
Qed.

Lemma update_same (l : list Color.t) (i : nat) (col : Color.t) :
  (i < length l)%nat -> nth_error (Image.update l i col) i = Some col.
Proof.
  revert i. induction l as [| old l IH]; intros [| i] Hi; cbn in *;
    try lia; [reflexivity | apply IH; lia].
Qed.

Lemma update_other (l : list Color.t) (i j : nat) (col : Color.t) :
  i <> j -> nth_error (Image.update l i col) j = nth_error l j.
Proof.
  revert i j. induction l as [| old l IH]; intros [| i] [| j] Hij; cbn;
    try reflexivity; try congruence.
  apply IH. congruence.
Qed.

End PixelBuffer.

Section ForRange.

Context {S : Type}.
Variable body : Z -> S -> option S.
Variable inv : Z -> S -> Prop.

(** A counting loop whose passes are defined and keep [inv] ends, and ends
    with [inv] at the bound. *)
Lemma for_range_invariant (first bound : Z) (s : S) :
  first <= bound ->
  inv first s ->
  (forall (i : Z) (t : S), first <= i < bound -> inv i t ->
     exists t', body i t = Some t' /\ inv (i + 1) t') ->
  exists s', for_range first bound body s = Some s' /\ inv bound s'.
Proof.
  intros Hle Hinit Hstep. unfold for_range.
  remember (Z.to_nat (bound - first)) as passes eqn:Hpasses.
  revert first s Hle Hinit Hstep Hpasses.
  induction passes as [| passes IH]; intros first s Hle Hinit Hstep Hpasses.
  - cbn [for_passes]. exists s. split; [reflexivity |].
    replace bound with first by lia. exact Hinit.
  - cbn [for_passes].
    destruct (Hstep first s ltac:(lia) Hinit) as (t & Hbody & Hinv).
    rewrite Hbody.
    apply IH; try assumption; try lia.
    intros i t' Hi. apply Hstep. lia.
Qed.

End ForRange.

Section Render.

Variables w h : Z.
Variable color_of : Z -> Z -> Color.t.
Hypothesis Hw : 0 <= w.
Hypothesis Hh : 0 <= h.

Lemma index_in_buffer (img : Image.t) (x y : Z) :
  (well_sized w h) img -> 0 <= x < w -> 0 <= y < h ->
  (Image.index img x y < length (Image.pixels img))%nat.
Proof.
  intros (Hx & Hy & Hlen) Hxr Hyr. unfold Image.index.
  rewrite Hlen, Hx.
  assert (Hrow : y * w <= (h - 1) * w) by (apply Z.mul_le_mono_nonneg_r; lia).
  apply Z2Nat.inj_lt; lia.
Qed.

Lemma index_injective (img : Image.t) (x y x' y' : Z) :
  (well_sized w h) img -> 0 <= x < w -> 0 <= y < h -> 0 <= x' < w -> 0 <= y' < h ->
  Image.index img x y = Image.index img x' y' -> x = x' /\ y = y'.
Proof.
  intros (Hx & _ & _) Hxr Hyr Hxr' Hyr' Heq. unfold Image.index in Heq.
  rewrite Hx in Heq.
  assert (H0 : 0 <= y * w) by (apply Z.mul_nonneg_nonneg; lia).
  assert (H0' : 0 <= y' * w) by (apply Z.mul_nonneg_nonneg; lia).
  apply Z2Nat.inj in Heq; try lia.
  destruct (Z.lt_trichotomy y y') as [Hlt | [-> | Hgt]].
  - assert (Hrow : (y + 1) * w <= y' * w) by (apply Z.mul_le_mono_nonneg_r; lia).
    lia.
  - lia.
  - assert (Hrow : (y' + 1) * w <= y * w) by (apply Z.mul_le_mono_nonneg_r; lia).
    lia.
Qed.

Lemma in_bounds_true (img : Image.t) (x y : Z) :
  (well_sized w h) img -> 0 <= x < w -> 0 <= y < h -> Image.in_bounds img x y = true.
Proof.
  intros (Hx & Hy & _) Hxr Hyr. unfold Image.in_bounds. rewrite Hx, Hy.
  repeat (apply andb_true_intro; split); lia.
Qed.

(** One call of [setPixel] inside the image: it is defined, paints its
    pixel and leaves every other pixel as it was. *)
Lemma setPixel_paints (img : Image.t) (x y : Z) :
  (well_sized w h) img -> 0 <= x < w -> 0 <= y < h ->
  exists img',
    Image.setPixel img x y (color_of x y) = Some img' /\
    (well_sized w h) img' /\
    painted color_of img' x y /\
    (forall x' y', 0 <= x' < w -> 0 <= y' < h -> (x', y') <> (x, y) ->
       Image.getPixel img' x' y' = Image.getPixel img x' y').
Proof.
  intros Hws Hxr Hyr. pose proof Hws as (Hx & Hy & Hlen).
  unfold Image.setPixel. rewrite (in_bounds_true img x y Hws Hxr Hyr).
  eexists. split; [reflexivity |].
  assert (Hws' : (well_sized w h)
            (Image.mk (Image.size_x img) (Image.size_y img)
               (Image.update (Image.pixels img) (Image.index img x y) (color_of x y)))).
  { unfold well_sized. cbn [Image.size_x Image.size_y Image.pixels].
    now rewrite update_length. }
  split; [exact Hws' |]. split.
  - unfold painted, Image.getPixel.
    rewrite (in_bounds_true _ x y Hws' Hxr Hyr).
    cbn [Image.pixels].
    change (Image.index (Image.mk _ _ _) x y) with (Image.index img x y).
    apply update_same. exact (index_in_buffer img x y Hws Hxr Hyr).
  - intros x' y' Hxr' Hyr' Hne. unfold Image.getPixel.
    rewrite (in_bounds_true _ x' y' Hws' Hxr' Hyr').
    rewrite (in_bounds_true _ x' y' Hws Hxr' Hyr').
    cbn [Image.pixels].
    change (Image.index (Image.mk _ _ _) x' y') with (Image.index img x' y').
    apply update_other. intros Heq.
    destruct (index_injective img x y x' y' Hws Hxr Hyr Hxr' Hyr' Heq) as [-> ->].
    now apply Hne.
Qed.

Lemma render_column_paints (x : Z) (img : Image.t) :
  0 <= x < w ->
  painted_up_to w h color_of x 0 img ->
  exists img',
    render_column h color_of x img = Some img' /\ painted_up_to w h color_of (x + 1) 0 img'.
Proof.
  intros Hxr Hinit. unfold render_column.
  destruct (for_range_invariant
              (fun y img' => Image.setPixel img' x y (color_of x y))
              (painted_up_to w h color_of x) 0 h img Hh Hinit) as (img' & Hrun & Hinv).
  - intros y t Hyr (Hws & Hcols & Hrows).
    destruct (setPixel_paints t x y Hws Hxr Hyr) as (t' & Hset & Hws' & Hp & Hkeep).
    exists t'. split; [exact Hset |].
    split; [exact Hws' |]. split.
    + intros x' y' Hx' Hy'. unfold painted.
      rewrite Hkeep by (try lia; intros [= ? ?]; lia).
      now apply Hcols.
    + intros y' Hy'.
      destruct (Z.eq_dec y' y) as [-> | Hne]; [exact Hp |].
      unfold painted. rewrite Hkeep by (try lia; intros [= ?]; lia).
      apply Hrows. lia.
  - exists img'. split; [exact Hrun |].
    destruct Hinv as (Hws & Hcols & Hrows).
    split; [exact Hws |]. split.
    + intros x' y' Hx' Hy'.
      destruct (Z.eq_dec x' x) as [-> | Hne]; [now apply Hrows |].
      apply Hcols; lia.
    + intros y' Hy'. lia.
Qed.

Lemma create_well_sized : well_sized w h (Image.create w h).
Proof.
  unfold well_sized, Image.create. cbn [Image.size_x Image.size_y Image.pixels].
  now rewrite repeat_length.
Qed.

(** The two loops never leave the image, and when they end every pixel
    holds the colour computed for it. *)
Lemma render_paints :
  exists img,
    render w h color_of = Some img /\
    Image.size_x img = w /\ Image.size_y img = h /\
    length (Image.pixels img) = Z.to_nat (w * h) /\
    forall x y, 0 <= x < w -> 0 <= y < h ->
      Image.getPixel img x y = Some (color_of x y).
Proof.
  unfold render.
  destruct (for_range_invariant (render_column h color_of)
              (fun x img => painted_up_to w h color_of x 0 img) 0 w (Image.create w h) Hw)
    as (img & Hrun & Hinv).
  - split; [exact create_well_sized |]. split; intros; lia.
  - intros x t Hxr Hinv. now apply render_column_paints.
  - exists img. split; [exact Hrun |].
    destruct Hinv as ((Hx & Hy & Hlen) & Hcols & _).
    split; [exact Hx |]. split; [exact Hy |]. split; [exact Hlen |].
    intros x y Hxr Hyr. now apply Hcols.
Qed.

End Render.

(** The picture of [main]: the two pixel loops make no call of [setPixel]
    outside the 800 x 800 image, and they leave an image whose pixel
    [(x, y)] is the colour of the count of the point of that pixel. *)
Theorem main_image_painted :
  exists img,
    main_image = Some img /\
    Image.size_x img = WIDTH /\ Image.size_y img = HEIGHT /\
    Z.of_nat (length (Image.pixels img)) = 640000 /\
    forall x y, 0 <= x < WIDTH -> 0 <= y < HEIGHT ->
      Image.getPixel img x y
      = Some (colorize (mandelbrot (mapPixelToPoint x y source_viewport))
                       MAX_ITERATIONS).
Proof.
  destruct (render_paints WIDTH HEIGHT pixel_color
              ltac:(unfold WIDTH; lia) ltac:(unfold HEIGHT; lia))
    as (img & Hrun & Hx & Hy & Hlen & Hpix).
  exists img. split; [exact Hrun |]. split; [exact Hx |]. split; [exact Hy |].
  split; [| exact Hpix].
  rewrite Hlen. rewrite Z2Nat.id by (unfold WIDTH, HEIGHT; lia). reflexivity.
Qed.

(** The pixel loops on any grid and with any colour function: on a [w] by
    [h] image they stay inside the image, keep its size, and paint each
    pixel [(x, y)] with [color_of x y]. *)
Theorem render_paints_every_pixel
  (w h : Z) (color_of : Z -> Z -> Color.t) :
  0 <= w -> 0 <= h ->
  exists img,
    render w h color_of = Some img /\
    Image.size_x img = w /\ Image.size_y img = h /\
    forall x y, 0 <= x < w -> 0 <= y < h ->
      Image.getPixel img x y = Some (color_of x y).
Proof.
  intros Hw Hh.
  destruct (render_paints w h color_of Hw Hh)
    as (img & Hrun & Hx & Hy & _ & Hpix).
  exists img. repeat split; assumption.
Qed.

Lemma render_paints_every_pixel_witness :
  exists img,
    render 2 3 (fun x y => Color.rgb x y 0) = Some img /\
    Image.size_x img = 2 /\ Image.size_y img = 3 /\
    forall x y, 0 <= x < 2 -> 0 <= y < 3 ->
      Image.getPixel img x y = Some (Color.rgb x y 0).
Proof.
  apply (render_paints_every_pixel 2 3 (fun x y => Color.rgb x y 0)); lia.
Defined.

(* ===================================================================== *)
(** ** The web server *)

Module ServerFacts.

Import Server.

Section Readings.

Lemma accepted_app (l1 l2 : list event) :
  accepted (l1 ++ l2) = accepted l1 ++ accepted l2.
Proof.
  induction l1 as [| e l1 IH]; [reflexivity |].
  destruct e; cbn [app accepted]; try exact IH.
  destruct (result <? 0); [exact IH | now rewrite IH].
Qed.

Lemma closed_app (l1 l2 : list event) :
  closed (l1 ++ l2) = closed l1 ++ closed l2.
Proof.
  induction l1 as [| e l1 IH]; [reflexivity |].
  destruct e; cbn [app closed]; try exact IH.
  now rewrite IH.
Qed.

Lemma written_app (l1 l2 : list event) :
  written (l1 ++ l2) = written l1 ++ written l2.
Proof.
  induction l1 as [| e l1 IH]; [reflexivity |].
  destruct e; cbn [app written]; try exact IH.
  now rewrite IH.
Qed.

Lemma balanced_app (l1 l2 : list event) :
  forall open : option Z,
    balanced open (l1 ++ l2) =
    match balanced open l1 with
    | Some open' => balanced open' l2
    | None => None
    end.
Proof.
  induction l1 as [| e l1 IH]; intros open; [reflexivity |].
  destruct e; cbn [app balanced]; try apply IH;
    destruct open as [cur |]; try reflexivity; try apply IH;
    destruct (fd =? cur); try reflexivity; apply IH.
Qed.

End Readings.

Section OnePass.

Variable server_fd : Z.
Variable a : attempt.

Lemma handle_accepted :
  accepted (handle server_fd a)
  = if accept_result a <? 0 then nil else accept_result a :: nil.
Proof.
  unfold handle. cbn [accepted].
  destruct (accept_result a <? 0); [reflexivity |].
  destruct (read_result a <? 0); reflexivity.
Qed.

Lemma handle_closed :
  closed (handle server_fd a)
  = if accept_result a <? 0 then nil else accept_result a :: nil.
Proof.
  unfold handle. cbn [closed].
  destruct (accept_result a <? 0); [reflexivity |].
  destruct (read_result a <? 0); reflexivity.
Qed.

Lemma handle_written :
  written (handle server_fd a)
  = if answered a then (accept_result a, http_response) :: nil else nil.
Proof.
  unfold handle, answered. cbn [written].
  rewrite !Z.leb_antisym.
  destruct (accept_result a <? 0); [reflexivity |].
  destruct (read_result a <? 0); reflexivity.
Qed.

Lemma handle_balanced : balanced None (handle server_fd a) = Some None.
Proof.
  unfold handle. cbn [balanced].
  destruct (accept_result a <? 0) eqn:Hacc; [reflexivity |].
  cbn [balanced]. rewrite Z.eqb_refl.
  destruct (read_result a <? 0); cbn [balanced];
    rewrite ?Z.eqb_refl; reflexivity.
Qed.

End OnePass.

Section Loop.

Variable server_fd : Z.

Lemma accept_loop_accepted (attempts : list attempt) :
  accepted (accept_loop server_fd attempts)
  = filter (fun fd => 0 <=? fd) (map accept_result attempts).
Proof.
  unfold accept_loop.
  induction attempts as [| a attempts IH]; [reflexivity |].
  cbn [flat_map map filter]. rewrite accepted_app, handle_accepted, IH.
  rewrite Z.leb_antisym.
  destruct (accept_result a <? 0); reflexivity.
Qed.

Lemma accept_loop_closed (attempts : list attempt) :
  closed (accept_loop server_fd attempts)
  = accepted (accept_loop server_fd attempts).
Proof.
  unfold accept_loop.
  induction attempts as [| a attempts IH]; [reflexivity |].
  cbn [flat_map]. rewrite closed_app, accepted_app, handle_closed, handle_accepted.
  now rewrite IH.
Qed.

Lemma accept_loop_written (attempts : list attempt) :
  written (accept_loop server_fd attempts)
  = map (fun a => (accept_result a, http_response)) (filter answered attempts).
Proof.
  unfold accept_loop.
  induction attempts as [| a attempts IH]; [reflexivity |].
  cbn [flat_map filter]. rewrite written_app, handle_written, IH.
  destruct (answered a); reflexivity.
Qed.

Lemma accept_loop_balanced (attempts : list attempt) :
  balanced None (accept_loop server_fd attempts) = Some None.
Proof.
  unfold accept_loop.
  induction attempts as [| a attempts IH]; [reflexivity |].
  cbn [flat_map]. rewrite balanced_app, handle_balanced. exact IH.
Qed.

End Loop.

(** The server never returns 0.  It stays in the accept loop exactly when
    [socket], [bind] and [listen] all succeed; otherwise it returns 1 without
    accepting anything, having closed the listening socket if and only if
    [socket] had returned one. *)
Theorem main_exit (env : setup) (attempts : list attempt) :
  (snd (main env attempts) = Accepting <-> setup_succeeds env) /\
  (snd (main env attempts) <> Accepting ->
   snd (main env attempts) = Exited 1 /\
   main env attempts = main env nil /\
   accepted (fst (main env attempts)) = nil /\
   written (fst (main env attempts)) = nil /\
   closed (fst (main env attempts))
   = if socket_result env =? -1 then nil else socket_result env :: nil).
Proof.
  unfold main, setup_succeeds.
  destruct (Z.eqb_spec (socket_result env) (-1)) as [Hs | Hs].
  - cbn [fst snd]. split; [split; [discriminate | intros [H _]; contradiction] |].
    intros _. repeat split.
  - destruct (Z.ltb_spec (bind_result env) 0) as [Hb | Hb].
    + cbn [fst snd]. split; [split; [discriminate | intros (_ & H & _); lia] |].
      intros _. repeat split.
    + destruct (Z.ltb_spec (listen_result env) 0) as [Hl | Hl].
      * cbn [fst snd]. split; [split; [discriminate | intros (_ & _ & H); lia] |].
        intros _. repeat split.
      * cbn [fst snd]. split; [split; [intros _; repeat split; assumption | reflexivity] |].
        intros H. now contradiction H.
Qed.

(** While the server runs, every connection it accepts is closed exactly
    once and before the next [accept]; [read], [write] and [close] only
    touch the connection in use; and the descriptors closed are exactly the
    descriptors accepted, so the listening socket stays open. *)
Theorem main_closes_what_it_accepts (env : setup) (attempts : list attempt) :
  setup_succeeds env ->
  let trace := fst (main env attempts) in
  accepted trace = filter (fun fd => 0 <=? fd) (map accept_result attempts) /\
  closed trace = accepted trace /\
  balanced None trace = Some None.
Proof.
  intros (Hs & Hb & Hl) trace. subst trace. unfold main.
  destruct (Z.eqb_spec (socket_result env) (-1)) as [Hs' | _]; [contradiction |].
  destruct (Z.ltb_spec (bind_result env) 0) as [Hb' | _]; [lia |].
  destruct (Z.ltb_spec (listen_result env) 0) as [Hl' | _]; [lia |].
  cbn [fst accepted closed balanced].
  rewrite accept_loop_closed, accept_loop_accepted, accept_loop_balanced.
  repeat split.
Qed.

Lemma main_closes_what_it_accepts_witness :
  let trace :=
    fst (main (mkSetup 3 0 0)
           (mkAttempt 4 "10.0.0.7" "5000" 5 "GET /" ::
            mkAttempt (-1) "" "" 0 "" ::
            mkAttempt 4 "10.0.0.8" "5001" (-1) "" :: nil)) in
  accepted trace
  = filter (fun fd => 0 <=? fd)
      (map accept_result
         (mkAttempt 4 "10.0.0.7" "5000" 5 "GET /" ::
          mkAttempt (-1) "" "" 0 "" ::
          mkAttempt 4 "10.0.0.8" "5001" (-1) "" :: nil)) /\
  closed trace = accepted trace /\
  balanced None trace = Some None.
Proof.
  apply (main_closes_what_it_accepts (mkSetup 3 0 0)).
  unfold setup_succeeds. cbn. lia.
Defined.

(** The response does not depend on the request: what the server writes is
    the fixed 110-byte text that starts with the status line [HTTP/1.1 200
    OK], once to every connection that was accepted and read without error,
    and to no other descriptor. *)
Theorem main_response (env : setup) (attempts : list attempt) :
  setup_succeeds env ->
  written (fst (main env attempts))
  = map (fun a => (accept_result a, http_response)) (filter answered attempts) /\
  String.length http_response = 110%nat /\
  substring 0 17 http_response = ("HTTP/1.1 200 OK" ++ CRLF)%string.
Proof.
  intros (Hs & Hb & Hl). unfold main.
  destruct (Z.eqb_spec (socket_result env) (-1)) as [Hs' | _]; [contradiction |].
  destruct (Z.ltb_spec (bind_result env) 0) as [Hb' | _]; [lia |].
  destruct (Z.ltb_spec (listen_result env) 0) as [Hl' | _]; [lia |].
  cbn [fst written]. rewrite accept_loop_written.
  repeat split.
Qed.

Lemma main_response_witness :
  written (fst (main (mkSetup 3 0 0)
                  (mkAttempt 4 "10.0.0.7" "5000" 5 "GET /" ::
                   mkAttempt 5 "10.0.0.8" "5001" (-1) "" :: nil)))
  = map (fun a => (accept_result a, http_response))
      (filter answered
         (mkAttempt 4 "10.0.0.7" "5000" 5 "GET /" ::
          mkAttempt 5 "10.0.0.8" "5001" (-1) "" :: nil)) /\
  String.length http_response = 110%nat /\
  substring 0 17 http_response = ("HTTP/1.1 200 OK" ++ CRLF)%string.
Proof.
  apply (main_response (mkSetup 3 0 0)).
  unfold setup_succeeds. cbn. lia.
Defined.

End ServerFacts.

(* ===================================================================== *)
(** ** The symmetry of the kernel in the real axis *)

Section SameValue.

Lemma same_value_refl (a : double) : same_value a a.
Proof. now left. Qed.

Lemma same_value_sym (a b : double) : same_value a b -> same_value b a.
Proof.
  intros [-> | (s & t & -> & ->)]; [now left | right; now exists t, s].
Qed.

Lemma same_value_trans (a b c : double) :
  same_value a b -> same_value b c -> same_value a c.
Proof.
  intros [-> | (s & t & -> & ->)] [<- | (s' & t' & Heq & ->)];
    try (now left); try (right; now eauto).
Qed.

Lemma same_value_zeros (s t : bool) : same_value (S754_zero s) (S754_zero t).
Proof. right. now exists s, t. Qed.

Lemma same_value_opp (a b : double) :
  same_value a b -> same_value (SFopp a) (SFopp b).
Proof.
  intros [-> | (s & t & -> & ->)]; [now left | apply same_value_zeros].
Qed.

Lemma opp_involutive (a : double) : SFopp (SFopp a) = a.
Proof. destruct a as [s | s | | s m e]; cbn; now rewrite ?negb_involutive. Qed.

(** The sign only reaches the result of a rounding as its sign. *)
Lemma binary_round_aux_opp (s : bool) (m e : Z) (l : location) :
  binary_round_aux prec emax (negb s) m e l
  = SFopp (binary_round_aux prec emax s m e l).
Proof.
  unfold binary_round_aux.
  destruct (shr_fexp prec emax m e l) as [mrs1 e1].
  destruct (shr_fexp prec emax _ e1 loc_Exact) as [mrs2 e2].
  destruct (shr_m mrs2); try reflexivity.
  destruct (e2 <=? emax - prec); reflexivity.
Qed.

Lemma binary_round_opp (s : bool) (m : positive) (e : Z) :
  binary_round prec emax (negb s) m e = SFopp (binary_round prec emax s m e).
Proof.
  unfold binary_round.
  destruct (shl_align m e _) as [mz ez].
  apply binary_round_aux_opp.
Qed.

Lemma binary_normalize_opp (n e : Z) :
  same_value (binary_normalize prec emax (- n) e false)
             (SFopp (binary_normalize prec emax n e false)).
Proof.
  destruct n as [| p | p]; cbn [Z.opp binary_normalize].
  - apply same_value_zeros.
  - left. exact (binary_round_opp false p e).
  - left. exact (binary_round_opp true p e).
Qed.

Lemma cond_Zopp_negb (s : bool) (v : Z) :
  cond_Zopp (negb s) v = - cond_Zopp s v.
Proof. destruct s; cbn; lia. Qed.

Lemma mul_opp_l (a b : double) :
  Double.mul (SFopp a) b = SFopp (Double.mul a b).
Proof.
  destruct a as [sa | sa | | sa ma ea], b as [sb | sb | | sb mb eb];
    cbn [Double.mul SFmul SFopp]; try reflexivity;
    try (now destruct sa, sb).
  replace (xorb (negb sa) sb) with (negb (xorb sa sb)) by now destruct sa, sb.
  apply binary_round_aux_opp.
Qed.

Lemma mul_opp_r (a b : double) :
  Double.mul a (SFopp b) = SFopp (Double.mul a b).
Proof.
  destruct a as [sa | sa | | sa ma ea], b as [sb | sb | | sb mb eb];
    cbn [Double.mul SFmul SFopp]; try reflexivity;
    try (now destruct sa, sb).
  replace (xorb sa (negb sb)) with (negb (xorb sa sb)) by now destruct sa, sb.
  apply binary_round_aux_opp.
Qed.

Lemma mul_same_value (a a' b b' : double) :
  same_value a a' -> same_value b b' ->
  same_value (Double.mul a b) (Double.mul a' b').
Proof.
  intros [-> | (s & t & -> & ->)] [-> | (u & v & -> & ->)].
  - apply same_value_refl.
  - destruct a' as [sa | sa | | sa ma ea]; cbn;
      first [apply same_value_zeros | apply same_value_refl].
  - destruct b' as [sb | sb | | sb mb eb]; cbn;
      first [apply same_value_zeros | apply same_value_refl].
  - cbn. apply same_value_zeros.
Qed.

Lemma add_same_value (a a' b b' : double) :
  same_value a a' -> same_value b b' ->
  same_value (Double.add a b) (Double.add a' b').
Proof.
  intros [-> | (s & t & -> & ->)] [-> | (u & v & -> & ->)].
  - apply same_value_refl.
  - destruct a' as [sa | sa | | sa ma ea]; try (apply same_value_refl);
      destruct sa, u, v; cbn; first [apply same_value_zeros | apply same_value_refl].
  - destruct b' as [sb | sb | | sb mb eb]; try (apply same_value_refl);
      destruct s, t; try destruct sb; cbn;
      first [apply same_value_zeros | apply same_value_refl].
  - destruct s, t, u, v; cbn; apply same_value_zeros.
Qed.

Lemma sub_same_value (a a' b b' : double) :
  same_value a a' -> same_value b b' ->
  same_value (Double.sub a b) (Double.sub a' b').
Proof.
  intros [-> | (s & t & -> & ->)] [-> | (u & v & -> & ->)].
  - apply same_value_refl.
  - destruct a' as [sa | sa | | sa ma ea]; try (apply same_value_refl);
      destruct sa, u, v; cbn; first [apply same_value_zeros | apply same_value_refl].
  - destruct b' as [sb | sb | | sb mb eb]; try (apply same_value_refl);
      destruct s, t; try destruct sb; cbn;
      first [apply same_value_zeros | apply same_value_refl].
  - destruct s, t, u, v; cbn; apply same_value_zeros.
Qed.

(** The sum of two opposites is the opposite of the sum, up to the sign of
    a zero sum. *)
Lemma add_opp (a b : double) :
  same_value (Double.add (SFopp a) (SFopp b)) (SFopp (Double.add a b)).
Proof.
  destruct a as [sa | sa | | sa ma ea], b as [sb | sb | | sb mb eb];
    cbn [SFopp]; try (destruct sa); try (destruct sb);
    try (cbn; first [apply same_value_zeros | apply same_value_refl]).
  all: cbn [Double.add SFadd negb];
    rewrite <- ?(cond_Zopp_negb true), <- ?(cond_Zopp_negb false);
    cbn [negb cond_Zopp];
    match goal with
    | |- same_value (binary_normalize _ _ ?n _ _) (SFopp (binary_normalize _ _ ?n' _ _)) =>
        replace n with (- n') by lia
    end;
    apply binary_normalize_opp.
Qed.

Lemma hypot_same_value (a a' b b' : double) :
  same_value a a' -> same_value b b' -> hypot a b = hypot a' b'.
Proof.
  intros [-> | (s & t & -> & ->)] [-> | (u & v & -> & ->)]; reflexivity.
Qed.

Lemma hypot_opp_r (a b : double) : hypot a (SFopp b) = hypot a b.
Proof.
  destruct a as [sa | sa | | sa ma ea], b as [sb | sb | | sb mb eb];
    reflexivity.
Qed.

End SameValue.

Section Mirror.

Variable c : complex.

(** One pass of the loop on mirror images gives mirror images. *)
Lemma mirrored_step (z w : complex) :
  mirrored z w ->
  mirrored (Cplx.add (Cplx.mul z z) (conjugate c)) (Cplx.add (Cplx.mul w w) c).
Proof.
  intros [Hre Him]. unfold mirrored, Cplx.add, Cplx.mul, conjugate.
  cbn [Cplx.re Cplx.im]. split.
  - apply add_same_value; [| apply same_value_refl].
    apply sub_same_value; [now apply mul_same_value |].
    apply (same_value_trans _ (Double.mul (SFopp (Cplx.im w)) (SFopp (Cplx.im w)))).
    + now apply mul_same_value.
    + rewrite mul_opp_l, mul_opp_r, opp_involutive. apply same_value_refl.
  - eapply same_value_trans; [| apply add_opp].
    apply add_same_value; [| apply same_value_refl].
    eapply same_value_trans; [| apply add_opp].
    apply add_same_value.
    + rewrite <- mul_opp_r. now apply mul_same_value.
    + rewrite <- mul_opp_l. now apply mul_same_value.
Qed.

Lemma mirrored_orbit (k : nat) : mirrored (orbit (conjugate c) k) (orbit c k).
Proof.
  induction k as [| k IH].
  - split; [apply same_value_refl | apply same_value_zeros].
  - cbn [orbit]. now apply mirrored_step.
Qed.

Lemma mirrored_abs (z w : complex) : mirrored z w -> Cplx.abs z = Cplx.abs w.
Proof.
  intros [Hre Him]. unfold Cplx.abs.
  rewrite (hypot_same_value _ _ _ _ Hre Him). apply hypot_opp_r.
Qed.

Lemma abs_orbit_conj (k : nat) :
  Cplx.abs (orbit (conjugate c) k) = Cplx.abs (orbit c k).
Proof. apply mirrored_abs, mirrored_orbit. Qed.

End Mirror.

(** The kernel is symmetric in the real axis: a point and its mirror image
    [(re, -im)] get the same count, under every budget; so [mandelbrot]
    gives both the same result. *)
Theorem mandelbrot_conj (c : complex) (maxIterations : Z) :
  iterate (conjugate c) maxIterations = iterate c maxIterations /\
  mandelbrot (conjugate c) = mandelbrot c.
Proof.
  assert (Hany : forall N, iterate (conjugate c) N = iterate c N).
  { intros N. destruct (Z_le_gt_dec 0 N) as [HN | HN].
    - destruct (iterate_postcondition c N HN) as (n & Hres & Hrange & Hbefore & Hexit).
      rewrite Hres. apply iterate_characterised; [exact HN |].
      split; [lia |]. split.
      + intros j Hj. rewrite abs_orbit_conj. now apply Hbefore.
      + intros Hlt. rewrite abs_orbit_conj. now apply Hexit.
    - rewrite !iterate_no_budget by lia. reflexivity. }
  split; [apply Hany | apply Hany].
Qed.

(* ===================================================================== *)
(** ** The audio visualizer *)

Module VisualizerFacts.

Import Visualizer.

Lemma holds_from_spec (test : Z -> bool) (count : nat) :
  forall first : Z,
    holds_from test count first = true ->
    forall x : Z, first <= x < first + Z.of_nat count -> test x = true.
Proof.
  induction count as [| count IH]; intros first Hall x Hx; [lia |].
  cbn [holds_from] in Hall. apply andb_true_iff in Hall.
  destruct Hall as [Hfirst Hrest].
  destruct (Z.eq_dec x first) as [-> | Hne]; [exact Hfirst |].
  apply (IH (first + 1) Hrest). lia.
Qed.

Lemma y_pos_all_samples :
  holds_from y_pos_inside (Pos.to_nat 65536) (-32768) = true.
Proof. vm_compute. reflexivity. Qed.

Lemma x_pos_all_segments :
  holds_from x_pos_inside (Pos.to_nat 500) 0 = true.
Proof. vm_compute. reflexivity. Qed.

(** Every vertex of the waveform lies in the window, within 50 pixels of
    the centre line: for every 16-bit sample the height lies between the
    rows 250 and 350; for every segment [i] of the 500 the abscissa lies
    between 0 and 800 and grows strictly with [i]. *)
Theorem vertices_inside_window (sample i : Z) :
  -32768 <= sample <= 32767 ->
  0 <= i < MAX_SAMPLES_TO_DISPLAY ->
  SFleb row_250 (y_pos sample) = true /\
  SFleb (y_pos sample) row_350 = true /\
  SFleb (S754_zero false) (x_pos i) = true /\
  SFltb (x_pos i) (x_pos (i + 1)) = true /\
  SFleb (x_pos (i + 1)) right_edge = true.
Proof.
  intros Hs Hi.
  pose proof (holds_from_spec _ _ _ y_pos_all_samples sample) as Hy.
  rewrite positive_nat_Z in Hy. specialize (Hy ltac:(lia)).
  pose proof (holds_from_spec _ _ _ x_pos_all_segments i) as Hx.
  rewrite positive_nat_Z in Hx.
  specialize (Hx ltac:(unfold MAX_SAMPLES_TO_DISPLAY in Hi; lia)).
  unfold y_pos_inside in Hy. unfold x_pos_inside in Hx. cbv zeta in Hy.
  apply andb_true_iff in Hy. destruct Hy as [Hy1 Hy2].
  apply andb_true_iff in Hx. destruct Hx as [Hx Hx3].
  apply andb_true_iff in Hx. destruct Hx as [Hx1 Hx2].
  repeat split; assumption.
Qed.

Lemma vertices_inside_window_witness :
  SFleb row_250 (y_pos 1234) = true /\
  SFleb (y_pos 1234) row_350 = true /\
  SFleb (S754_zero false) (x_pos 499) = true /\
  SFltb (x_pos 499) (x_pos (499 + 1)) = true /\
  SFleb (x_pos (499 + 1)) right_edge = true.
Proof.
  apply (vertices_inside_window 1234 499);
    unfold MAX_SAMPLES_TO_DISPLAY; lia.
Defined.

Lemma wrap_u32_small (n : Z) : 0 <= n < 2 ^ 32 -> wrap_u32 n = n.
Proof. intros Hn. unfold wrap_u32. now apply Z.mod_small. Qed.

Lemma wrap_u32_range (n : Z) : 0 <= wrap_u32 n < 2 ^ 32.
Proof. unfold wrap_u32. apply Z.mod_pos_bound. lia. Qed.

(** With an empty buffer the first pass already leaves the loop. *)
Lemma draw_segments_empty
  (samples : list Z) (channels current : Z) (passes : nat) (i : Z)
  (waveform : list vertex) :
  draw_segments samples 0 channels current passes i waveform = Some waveform.
Proof.
  destruct passes as [| passes]; cbn [draw_segments]; [reflexivity |].
  pose proof (wrap_u32_range (current + i)) as Hidx.
  destruct (Z.leb_spec 0 (wrap_u32 (current + i))); [reflexivity | lia].
Qed.

Section Reads.

Variable samples : list Z.
Variable numSamples : Z.
Hypothesis Hlength : Z.of_nat (length samples) = numSamples.
Hypothesis Hrange : numSamples < 2 ^ 32.

(** With one channel the loop never reads outside the buffer. *)
Lemma draw_segments_mono (current : Z) (passes : nat) :
  forall (i : Z) (waveform : list vertex),
    exists waveform',
      draw_segments samples numSamples 1 current passes i waveform
      = Some waveform'.
Proof.
  induction passes as [| passes IH]; intros i waveform; cbn [draw_segments].
  - now exists waveform.
  - destruct (Z.leb_spec numSamples (wrap_u32 (current + i))) as [Hout | Hin].
    + now exists waveform.
    + pose proof (wrap_u32_range (current + i)) as Hidx.
      rewrite Z.mul_1_r, (wrap_u32_small (wrap_u32 (current + i))) by lia.
      destruct (nth_error samples (Z.to_nat (wrap_u32 (current + i))))
        as [sample |] eqn:Hread.
      * apply IH.
      * exfalso. apply nth_error_None in Hread. lia.
Qed.

End Reads.

(** A mono buffer is read inside its bounds: with one channel and a buffer
    of [numSamples] samples, a frame is drawn without any read outside the
    buffer, wherever the playing position is; and an empty buffer leaves the
    waveform as it was. *)
Theorem draw_frame_mono
  (samples : list Z) (numSamples current : Z) (waveform : list vertex) :
  Z.of_nat (length samples) = numSamples ->
  numSamples < 2 ^ 32 ->
  (exists waveform',
     draw_frame samples numSamples 1 current waveform = Some waveform') /\
  (numSamples = 0 ->
   draw_frame samples numSamples 1 current waveform = Some waveform).
Proof.
  intros Hlength Hrange. split.
  - unfold draw_frame. now apply draw_segments_mono.
  - intros Hempty. unfold draw_frame. rewrite Hempty.
    apply draw_segments_empty.
Qed.

Lemma draw_frame_mono_witness :
  (exists waveform',
     draw_frame (10 :: -20 :: 30 :: nil) 3 1 1 nil = Some waveform') /\
  (3 = 0 -> draw_frame (10 :: -20 :: 30 :: nil) 3 1 1 nil = Some nil).
Proof.
  apply (draw_frame_mono (10 :: -20 :: 30 :: nil) 3 1 nil).
  - reflexivity.
  - lia.
Defined.

(** A stereo buffer is read past its end: with two channels, once the
    playing position has passed the middle of the buffer
    ([currentSampleIndex < numSamples <= 2 * currentSampleIndex]), the first
    read of the frame, at [currentSampleIndex * 2], is outside the
    [numSamples] samples of the buffer. *)
Theorem draw_frame_stereo_out_of_bounds
  (samples : list Z) (numSamples current : Z) (waveform : list vertex) :
  Z.of_nat (length samples) = numSamples ->
  0 <= current < numSamples ->
  numSamples <= 2 * current ->
  2 * current < 2 ^ 32 ->
  draw_frame samples numSamples 2 current waveform = None.
Proof.
  intros Hlength Hcur Hhalf Hfit.
  unfold draw_frame, clamp_index.
  destruct (Z.leb_spec numSamples current) as [Hle | _]; [lia |].
  replace (Z.to_nat MAX_SAMPLES_TO_DISPLAY) with (S (Z.to_nat 499))
    by (unfold MAX_SAMPLES_TO_DISPLAY; lia).
  cbn [draw_segments].
  rewrite Z.add_0_r.
  rewrite (wrap_u32_small current) by lia.
  destruct (Z.leb_spec numSamples current) as [Hle | _]; [lia |].
  rewrite (wrap_u32_small (current * 2)) by lia.
  destruct (nth_error samples (Z.to_nat (current * 2))) as [sample |] eqn:Hread;
    [| reflexivity].
  exfalso.
  assert (Hsome : nth_error samples (Z.to_nat (current * 2)) <> None) by congruence.
  apply nth_error_Some in Hsome. lia.
Qed.

Lemma draw_frame_stereo_out_of_bounds_witness :
  draw_frame (1 :: 2 :: 3 :: 4 :: nil) 4 2 3 nil = None.
Proof.
  apply (draw_frame_stereo_out_of_bounds (1 :: 2 :: 3 :: 4 :: nil) 4 3 nil);
    try reflexivity; lia.
Defined.

End VisualizerFacts.
